(** * financial-analyst-mvp: retrieval, chunking, index update and cleaning

    A shallow embedding of the decision logic of the repository's Python
    scripts, and the properties its specification states about them.

    Part I, the embedding:
    - [Py]            the Python built-ins the scripts rely on
    - [ask]           rag_pipeline/ask.py   (filter, most-recent, rank, sources)
    - [chunk_docs]    embeddings/chunk_docs.py   (fixed-window chunking)
    - [update_faiss]  embeddings/update_faiss.py (incremental index update)
    - [clean_docs]    preprocess/clean_docs.py   (dropping short documents)

    Part II, the notions the properties are stated with; Part III, the
    properties, one section per topic.

    Conventions.  A Python [str] is a [string]; the characters are read as
    ASCII code points, which is what tickers, form types, ISO dates and the
    whitespace tests below need.  A JSON field that may be absent or null is
    an [option]: [dict.get] returns [None] in both cases.  A Python [int] is
    a [Z].  A similarity score is a finite float; only its order is used, so
    it is a rational number [Q] compared with [Qle_bool].  What the scripts
    get from outside (the embedding of a text, the reply of the chat model,
    the text BeautifulSoup extracts) is a parameter. *)

From Stdlib Require Import ZArith QArith Lia Ascii String.
From Stdlib Require DecimalString DecimalNat.
From stdpp Require Import base list gmap strings sorting.
Close Scope Q_scope.
Set Warnings "-clear-no-such-hyp".

(* ================================================================== *)
(** * Part I: the embedding                                             *)
(* ================================================================== *)

(** ** Python built-ins *)

Module Py.

(** *** [str] *)

Definition code (c : ascii) : nat := nat_of_ascii c.

Definition is_lower (c : ascii) : bool := (97 <=? code c) && (code c <=? 122).

(** [str.upper], character by character: a-z go to A-Z. *)
Definition upper_char (c : ascii) : ascii :=
  if is_lower c then ascii_of_nat (code c - 32) else c.

Fixpoint upper (s : string) : string :=
  match s with
  | EmptyString => EmptyString
  | String c s' => String (upper_char c) (upper s')
  end.

(** [str.isspace] on one ASCII character: TAB, LF, VT, FF, CR, the four
    separators FS GS RS US, and the space. *)
Definition isspace (c : ascii) : bool :=
  ((9 <=? code c) && (code c <=? 13)) || ((28 <=? code c) && (code c <=? 32)).

Fixpoint lstrip (s : string) : string :=
  match s with
  | EmptyString => EmptyString
  | String c s' => if isspace c then lstrip s' else s
  end.

Fixpoint rstrip (s : string) : string :=
  match s with
  | EmptyString => EmptyString
  | String c s' =>
      match rstrip s' with
      | EmptyString => if isspace c then EmptyString else String c EmptyString
      | r => String c r
      end
  end.

(** [str.strip()] *)
Definition strip (s : string) : string := rstrip (lstrip s).

(** Truth value of an optional string: [None] and [""] are falsy. *)
Definition truthy (o : option string) : bool :=
  match o with
  | Some (String _ _) => true
  | _ => false
  end.

(** [o or ""] *)
Definition or_empty (o : option string) : string :=
  match o with
  | Some s => s
  | None => EmptyString
  end.

(** [str(o)] inside an f-string: [None] prints as the word None. *)
Definition fmt (o : option string) : string :=
  match o with
  | Some s => s
  | None => "None"
  end.

(** [sep.join(l)] *)
Fixpoint join (sep : string) (l : list string) : string :=
  match l with
  | [] => EmptyString
  | [s] => s
  | s :: l' => s +:+ sep +:+ join sep l'
  end.

(** *** Slices *)

(** A slice bound [i] of a sequence of length [n]: a negative bound counts
    from the end, and every bound is clipped to [0..n]. *)
Definition clip (n i : Z) : Z :=
  if (i <? 0)%Z then Z.max 0 (i + n) else Z.min i n.

(** [s[lo:hi]] on a string *)
Definition slice (s : string) (lo hi : Z) : string :=
  let n := Z.of_nat (String.length s) in
  substring (Z.to_nat (clip n lo)) (Z.to_nat (clip n hi - clip n lo)) s.

(** [l[:hi]] on a list *)
Definition slice_to {A} (l : list A) (hi : Z) : list A :=
  take (Z.to_nat (clip (Z.of_nat (length l)) hi)) l.

(** [l[lo:hi]] on a list *)
Definition lslice {A} (l : list A) (lo hi : Z) : list A :=
  let n := Z.of_nat (length l) in
  take (Z.to_nat (clip n hi - clip n lo)) (drop (Z.to_nat (clip n lo)) l).

(** *** [sorted(l, key=key, reverse=True)]

    Python's sort is stable, also with [reverse=True]: the result is in
    descending key order and elements with equal keys keep the order they
    had in [l].  A stable sort has one possible result, computed here by
    insertion from the right: [x] stood before every element of the
    sorted tail, so it goes in front of the first element whose key is not
    greater than its own. *)
Fixpoint insert_desc {A} (key : A → Q) (x : A) (l : list A) : list A :=
  match l with
  | [] => [x]
  | y :: l' =>
      if Qle_bool (key y) (key x) then x :: y :: l'
      else y :: insert_desc key x l'
  end.

Fixpoint sorted_desc {A} (key : A → Q) (l : list A) : list A :=
  match l with
  | [] => []
  | x :: l' => insert_desc key x (sorted_desc key l')
  end.

(** *** Dictionaries keep insertion order

    [list(dict.fromkeys(l))]: each key enters the dictionary the first
    time it is met, at the end. *)
Definition setdefault_key {K} `{EqDecision K} (d : list K) (k : K) : list K :=
  if decide (k ∈ d) then d else d ++ [k].

Definition fromkeys {K} `{EqDecision K} (l : list K) : list K :=
  fold_left setdefault_key l [].

(** [d[k].append(v)] on a [defaultdict(list)]: an existing key keeps its
    place and its list grows at the end; a new key is added last. *)
Fixpoint dict_append {K V} `{EqDecision K}
    (d : list (K * list V)) (k : K) (v : V) : list (K * list V) :=
  match d with
  | [] => [(k, [v])]
  | (k', vs) :: d' =>
      if decide (k' = k) then (k', vs ++ [v]) :: d'
      else (k', vs) :: dict_append d' k v
  end.

(** [d[k]] on a [defaultdict(list)]; a missing key reads as the empty list. *)
Fixpoint dict_get {K V} `{EqDecision K} (d : list (K * list V)) (k : K) : list V :=
  match d with
  | [] => []
  | (k', vs) :: d' => if decide (k' = k) then vs else dict_get d' k
  end.

(** [range(0, n, step)] for a positive step *)
Definition range_step (n step : nat) : list nat :=
  (λ i, i * step) <$> seq 0 (Nat.div (n + step - 1) step).

End Py.

(** ** The data model: chunks and their metadata

    One element of the chunk file and of the metadata store:
    [{"chunk_id": ..., "text": ..., "meta": {...}}].  The fields of [meta]
    that the scripts read are kept; each may be absent or null. *)

Record meta := Meta {
  ticker : option string;
  doc_type : option string;
  filing_date : option string;
  url : option string
}.

Record item := Item {
  chunk_id : option string;
  text : string;
  item_meta : meta
}.

Definition nl : string := String (ascii_of_nat 10) EmptyString.

(** ** rag_pipeline/ask.py *)

Module ask.

(** *** [parse_date]

    [datetime.strptime(s, "%Y-%m-%d")] matches the regular expression
    [(\d\d\d\d)-(1[0-2]|0[1-9]|[1-9])-(3[0-1]|[1-2]\d|0[1-9]|[1-9]| [1-9])]
    against the whole string and then builds the date, which fails for
    year 0 and for a day the month does not have.  Every failure is a
    [ValueError], which [parse_date] turns into [None].  The time of day
    of the result is always midnight, so a [datetime] is its calendar
    date and the comparison of two results is the comparison of
    (year, month, day). *)

Record date := Date { year : nat; month : nat; day : nat }.

Definition is_digit (c : ascii) : bool :=
  (48 <=? Py.code c) && (Py.code c <=? 57).
Definition digit (c : ascii) : nat := Py.code c - 48.

Definition in_range (lo hi : nat) (c : ascii) : bool :=
  (lo <=? digit c) && (digit c <=? hi) && is_digit c.

Definition year_token (s : string) : option nat :=
  match s with
  | String a (String b (String c (String d EmptyString))) =>
      if is_digit a && is_digit b && is_digit c && is_digit d
      then Some (1000 * digit a + 100 * digit b + 10 * digit c + digit d)
      else None
  | _ => None
  end.

Definition month_token (s : string) : option nat :=
  match s with
  | String a EmptyString =>
      if in_range 1 9 a then Some (digit a) else None
  | String a (String b EmptyString) =>
      if (in_range 1 1 a && in_range 0 2 b) || (in_range 0 0 a && in_range 1 9 b)
      then Some (10 * digit a + digit b) else None
  | _ => None
  end.

Definition day_token (s : string) : option nat :=
  match s with
  | String a EmptyString =>
      if in_range 1 9 a then Some (digit a) else None
  | String a (String b EmptyString) =>
      if (in_range 3 3 a && in_range 0 1 b) || (in_range 1 2 a && is_digit b)
         || (in_range 0 0 a && in_range 1 9 b)
      then Some (10 * digit a + digit b)
      else if (Py.code a =? 32) && in_range 1 9 b then Some (digit b)
      else None
  | _ => None
  end.

(** The text before the first ["-"], and the text after it. *)
Fixpoint split_dash (s : string) : option (string * string) :=
  match s with
  | EmptyString => None
  | String c s' =>
      if Py.code c =? 45 then Some (EmptyString, s')
      else match split_dash s' with
           | Some (l, r) => Some (String c l, r)
           | None => None
           end
  end.

Definition is_leap (y : nat) : bool :=
  (y mod 4 =? 0) && (negb (y mod 100 =? 0) || (y mod 400 =? 0)).

Definition days_in_month (y m : nat) : nat :=
  match m with
  | 2 => if is_leap y then 29 else 28
  | 4 | 6 | 9 | 11 => 30
  | _ => 31
  end.

Definition strptime_ymd (s : string) : option date :=
  match split_dash s with
  | Some (ys, rest) =>
      match split_dash rest with
      | Some (ms, ds) =>
          match year_token ys, month_token ms, day_token ds with
          | Some y, Some m, Some d =>
              if (1 <=? y) && (d <=? days_in_month y m)
              then Some (Date y m d) else None
          | _, _, _ => None
          end
      | None => None
      end
  | None => None
  end.

Definition parse_date (s : option string) : option date :=
  if Py.truthy s then strptime_ymd (Py.or_empty s) else None.

(** [a < b] on dates *)
Definition date_ltb (a b : date) : bool :=
  (year a <? year b)
  || ((year a =? year b) && ((month a <? month b)
  || ((month a =? month b) && (day a <? day b)))).

(** [max(dates)]: the first of the greatest elements. *)
Fixpoint max_from (cur : date) (l : list date) : date :=
  match l with
  | [] => cur
  | d :: l' => max_from (if date_ltb cur d then d else cur) l'
  end.

(** [max(dates) if dates else None] *)
Definition max_date (l : list date) : option date :=
  match l with
  | [] => None
  | d :: l' => Some (max_from d l')
  end.

(** *** Hits *)

(** A hit is [(score, item, m)] with [m = item.get("meta", {})]; [m] is
    read off the item here. *)
Definition hit : Type := Q * item.
Definition score (h : hit) : Q := h.1.
Definition hit_meta (h : hit) : meta := item_meta h.2.
Definition hit_url (h : hit) : option string := url (hit_meta h).

(** Lines 58-65: the search result is a list of (score, position); a
    negative position is skipped, any other is looked up in the store
    ([None]: the lookup [meta[idx]] raised [IndexError]). *)
Fixpoint collect_hits (store : list item) (res : list (Q * Z)) : option (list hit) :=
  match res with
  | [] => Some []
  | (s, idx) :: res' =>
      if (idx <? 0)%Z then collect_hits store res'
      else match store !! Z.to_nat idx with
           | Some it => cons (s, it) <$> collect_hits store res'
           | None => None
           end
  end.

(** Lines 68-70 *)
Definition filter_ticker (arg : option string) (hits : list hit) : list hit :=
  if Py.truthy arg then
    let t := Py.upper (Py.strip (Py.or_empty arg)) in
    filter (λ h, Py.upper (Py.or_empty (ticker (hit_meta h))) = t) hits
  else hits.

(** Lines 72-74 *)
Definition filter_doc_type (arg : option string) (hits : list hit) : list hit :=
  if Py.truthy arg then
    let dt := Py.upper (Py.strip (Py.or_empty arg)) in
    filter (λ h, Py.upper (Py.or_empty (doc_type (hit_meta h))) = dt) hits
  else hits.

(** Lines 83-85: [by_url[m.get("url")].append(hit)] for each hit. *)
Definition group_by_url (hits : list hit) : list (option string * list hit) :=
  fold_left (λ d h, Py.dict_append d (hit_url h) h) hits [].

(** Lines 91-93 *)
Definition group_dmax (items : list hit) : option date :=
  max_date (omap (λ x, parse_date (filing_date (hit_meta x))) items).

(** Lines 89-96, one round of the loop over [by_url.items()].  The state
    is [(best_url, best_date)]; [best_url] is a Python value that is
    [None] at the start and a group key afterwards. *)
Definition select_step (best : option string * option date)
    (entry : option string * list hit) : option string * option date :=
  match group_dmax entry.2 with
  | Some dmax =>
      match best.2 with
      | None => (entry.1, Some dmax)
      | Some best_date =>
          if date_ltb best_date dmax then (entry.1, Some dmax) else best
      end
  | None => best
  end.

Definition select_best (by_url : list (option string * list hit))
  : option string * option date :=
  fold_left select_step by_url (None, None).

(** Lines 82-99 *)
Definition most_recent_doc (hits : list hit) : list hit :=
  let by_url := group_by_url hits in
  let best_url := (select_best by_url).1 in
  if Py.truthy best_url then Py.dict_get by_url best_url else hits.

(** Line 102 *)
Definition rank (hits : list hit) (max_chunks : Z) : list hit :=
  Py.slice_to (Py.sorted_desc score hits) max_chunks.

(** Lines 104-111 *)
Definition context_block (h : hit) : string :=
  "[" +:+ Py.fmt (ticker (hit_meta h)) +:+ " | "
      +:+ Py.fmt (doc_type (hit_meta h)) +:+ " | "
      +:+ Py.fmt (filing_date (hit_meta h)) +:+ "] " +:+ text h.2.

Fixpoint sources (hits : list hit) : list string :=
  match hits with
  | [] => []
  | h :: hits' =>
      if Py.truthy (hit_url h) then Py.or_empty (hit_url h) :: sources hits'
      else sources hits'
  end.

Definition context (hits : list hit) : string :=
  Py.join (nl +:+ nl +:+ "---" +:+ nl +:+ nl) (context_block <$> hits).

(** Line 138: [list(dict.fromkeys([u for u in sources if u]))[:5]] *)
Definition source_list (hits : list hit) : list string :=
  Py.slice_to (Py.fromkeys (filter (λ u, Py.truthy (Some u) = true) (sources hits))) 5.

(** What a run does that can be seen from outside: the lines it prints
    and the chat-completion requests it sends.  The prompt is a fixed
    template around the question and the context, so a request is
    recorded by these two. *)
Inductive event :=
| Print (line : string)
| ChatCompletion (question context : string).

Record args := Args {
  question : string;
  ticker_arg : option string;
  doc_type_arg : option string;
  most_recent : bool;
  max_chunks : Z
}.

Definition no_match : list event :=
  [Print (nl +:+ "=== Answer ===" +:+ nl);
   Print "No matching documents found after filtering."].

(** [main], from the search result on (lines 58-140).  [store] is the
    metadata file, [res] the zipped result of [index.search], [chat] the
    reply of the chat model to a question and a context.  [None] is the
    IndexError of [meta[idx]] at line 62, the one exception these lines
    raise themselves.  The calls to the API are taken to return and the
    store to hold well-typed entries, so [None] says nothing about a
    failing request, a missing API key or a malformed metadata file. *)
Definition main (a : args) (store : list item) (res : list (Q * Z))
    (chat : string → string → string) : option (list event) :=
  match collect_hits store res with
  | None => None
  | Some hits =>
      let hits := filter_ticker (ticker_arg a) hits in
      let hits := filter_doc_type (doc_type_arg a) hits in
      match hits with
      | [] => Some no_match
      | _ =>
          let hits := if most_recent a then most_recent_doc hits else hits in
          let hits := rank hits (max_chunks a) in
          let ctx := context hits in
          Some ([ChatCompletion (question a) ctx;
                 Print (nl +:+ "=== Answer ===" +:+ nl);
                 Print (chat (question a) ctx);
                 Print (nl +:+ "=== Sources (top hits) ===")]
                ++ ((λ s, Print ("- " +:+ s)) <$> source_list hits))
      end
  end.

End ask.

(** ** embeddings/chunk_docs.py *)

Module chunk_docs.

(** The [while] loop of [chunk_text], lines 13-20.  The loop has no bound
    of its own, so the embedding counts the rounds it may still make:
    [None] means that [fuel] rounds were not enough to leave the loop. *)
Fixpoint chunk_loop (fuel : nat) (text : string) (chunk_size overlap : Z)
    (start : Z) (chunks : list string) : option (list string) :=
  match fuel with
  | O => None
  | S fuel' =>
      let n := Z.of_nat (String.length text) in
      if (start <? n)%Z then
        let end_ := Z.min (start + chunk_size) n in
        let chunk := Py.strip (Py.slice text start end_) in
        let chunks := if decide (chunk = EmptyString) then chunks else chunks ++ [chunk] in
        if (end_ =? n)%Z then Some chunks
        else chunk_loop fuel' text chunk_size overlap (Z.max 0 (end_ - overlap)) chunks
      else Some chunks
  end.

Definition chunk_text (fuel : nat) (text : string) (chunk_size overlap : Z)
  : option (list string) :=
  chunk_loop fuel text chunk_size overlap 0 [].

(** [chunk_text] returns [r]: some number of rounds is enough. *)
Definition returns (text : string) (chunk_size overlap : Z) (r : list string) : Prop :=
  ∃ fuel, chunk_text fuel text chunk_size overlap = Some r.

(** [chunk_text] loops forever: no number of rounds is enough. *)
Definition diverges (text : string) (chunk_size overlap : Z) : Prop :=
  ∀ fuel, chunk_text fuel text chunk_size overlap = None.

(** One cleaned document, as [main] reads it from a file of the input
    directory; of its fields those that end up in [meta] here. *)
Record doc := Doc {
  doc_id : option string;
  doc_text : option string;
  doc_ticker : option string;
  doc_doc_type : option string;
  doc_filing_date : option string;
  doc_url : option string
}.

(** [str(idx)] for an index of [enumerate]: the decimal digits. *)
Definition str_of_nat (n : nat) : string :=
  DecimalString.NilEmpty.string_of_uint (Nat.to_uint n).

(** Line 52: the f-string of the chunk_id. *)
Definition chunk_key (id : option string) (idx : nat) : string :=
  Py.fmt id +:+ "::chunk_" +:+ str_of_nat idx.

(** Lines 50-64: the chunks of one document, numbered from 0. *)
Definition doc_items (d : doc) (chunks : list string) : list item :=
  imap (λ idx ch,
          Item (Some (chunk_key (doc_id d) idx)) ch
            (Meta (doc_ticker d) (doc_doc_type d) (doc_filing_date d) (doc_url d)))
    chunks.

(** Lines 43-64: the lines of the chunk file, for the documents in the
    order of their file names.  A document without text is passed over.
    [None]: [fuel] rounds were not enough for the chunking of a text. *)
Fixpoint main (fuel : nat) (chunk_size overlap : Z) (docs : list doc)
  : option (list item) :=
  match docs with
  | [] => Some []
  | d :: docs' =>
      if Py.truthy (doc_text d) then
        match chunk_text fuel (Py.or_empty (doc_text d)) chunk_size overlap with
        | Some chunks => app (doc_items d chunks) <$> main fuel chunk_size overlap docs'
        | None => None
        end
      else main fuel chunk_size overlap docs'
  end.

End chunk_docs.

(** ** embeddings/update_faiss.py *)

Module update_faiss.

Section Update.
(** An embedding vector, the embedding the API returns for one input
    text, and the scaling of one row by [faiss.normalize_L2]. *)
Context {vec : Type}.
Variable embedding : string → vec.
Variable normalize_L2 : vec → vec.

(** [client.embeddings.create(model, input=batch).data]: one embedding
    per input, in input order. *)
Definition create (batch : list string) : list vec := embedding <$> batch.

(** Lines 22-30 *)
Definition embed_texts (texts : list string) (batch_size : nat) : list vec :=
  let vectors :=
    fold_left
      (λ vectors i,
         let batch := Py.lslice texts (Z.of_nat i) (Z.of_nat (i + batch_size)) in
         vectors ++ create batch)
      (Py.range_step (length texts) batch_size) [] in
  normalize_L2 <$> vectors.

(** The two files an update reads and writes back: the vectors of the
    index in their order, and the metadata store. *)
Record state := State {
  index : list vec;
  store : list item
}.

(** Lines 60-75.  [index.add] appends the rows to the index. *)
Definition main (chunks : list item) (st : state) : state :=
  let existing_ids : gset (option string) := list_to_set (chunk_id <$> store st) in
  let new_items := filter (λ c, chunk_id c ∉ existing_ids) chunks in
  match new_items with
  | [] => st
  | _ =>
      let texts := text <$> new_items in
      let vecs := embed_texts texts 64 in
      State (index st ++ vecs) (store st ++ new_items)
  end.

End Update.

End update_faiss.

(** ** embeddings/build_faiss.py *)

Module build_faiss.

Section Build.
Context {vec : Type}.
Variable embedding : string → vec.
Variable normalize_L2 : vec → vec.

(** Lines 22-29: as in update_faiss.py, but the rows are not normalised
    here. *)
Definition embed_texts (texts : list string) (batch_size : nat) : list vec :=
  fold_left
    (λ vectors i,
       let batch := Py.lslice texts (Z.of_nat i) (Z.of_nat (i + batch_size)) in
       vectors ++ update_faiss.create embedding batch)
    (Py.range_step (length texts) batch_size) [].

(** Lines 50-63.  The array of no vectors has one dimension only, and
    [vectors.shape[1]] raises [IndexError] ([None]); otherwise the index is
    made of the normalised vectors and the metadata file of the chunks. *)
Definition main (chunks : list item) : option (@update_faiss.state vec) :=
  let texts := text <$> chunks in
  let vectors := embed_texts texts 64 in
  match vectors with
  | [] => None
  | _ => Some (update_faiss.State (normalize_L2 <$> vectors) chunks)
  end.

End Build.

End build_faiss.

(** ** preprocess/clean_docs.py *)

Module clean_docs.

(** [re.sub] of every maximal run of at least [least] characters that
    satisfy [p] by [repl]; shorter runs stay. *)
Definition flush (least : nat) (repl run : string) : string :=
  if least <=? String.length run then repl else run.

Fixpoint sub_runs (p : ascii → bool) (least : nat) (repl run s : string) : string :=
  match s with
  | EmptyString => flush least repl run
  | String c s' =>
      if p c then sub_runs p least repl (run +:+ String c EmptyString) s'
      else flush least repl run +:+ String c (sub_runs p least repl EmptyString s')
  end.

Definition is_cr (c : ascii) : bool := Py.code c =? 13.
Definition is_lf (c : ascii) : bool := Py.code c =? 10.
Definition is_blank (c : ascii) : bool := (Py.code c =? 32) || (Py.code c =? 9).

(** [re.sub(r"\r", "\n", s)]: every carriage return becomes a line feed. *)
Fixpoint sub_cr (s : string) : string :=
  match s with
  | EmptyString => EmptyString
  | String c s' => String (if is_cr c then ascii_of_nat 10 else c) (sub_cr s')
  end.

Section Clean.
(** The text BeautifulSoup extracts from the page once the script,
    style and noscript elements are removed. *)
Variable get_text : string → string.

(** Lines 11-19 *)
Definition html_to_text (html : string) : string :=
  let text := get_text html in
  let text := sub_cr text in
  let text := sub_runs is_lf 3 (nl +:+ nl) EmptyString text in
  let text := sub_runs is_blank 2 " " EmptyString text in
  Py.strip text.

(** A scraped document, and a cleaned one.  The fields that are copied
    through are JSON values the script never looks into. *)
Record raw_item := Raw {
  raw_html : option string;
  raw_id : option string;
  raw_ticker : option string;
  raw_source : option string;
  raw_doc_type : option string;
  raw_cik : option string;
  raw_accession : option string;
  raw_filing_date : option string;
  raw_report_date : option string;
  raw_url : option string;
  raw_fetched_at : option string
}.

Record cleaned := Cleaned {
  c_id : option string;
  c_text : string;
  c_ticker : option string;
  c_source : option string;
  c_doc_type : option string;
  c_cik : option string;
  c_accession : option string;
  c_filing_date : option string;
  c_report_date : option string;
  c_url : option string;
  c_fetched_at : option string
}.

(** Lines 22-43 *)
Definition clean_one (raw : raw_item) : option cleaned :=
  if Py.truthy (raw_html raw) then
    let text := html_to_text (Py.or_empty (raw_html raw)) in
    if String.length text <? 200 then None
    else Some (Cleaned (raw_id raw) text (raw_ticker raw) (raw_source raw)
                 (raw_doc_type raw) (raw_cik raw) (raw_accession raw)
                 (raw_filing_date raw) (raw_report_date raw) (raw_url raw)
                 (raw_fetched_at raw))
  else None.

End Clean.

End clean_docs.

(** ** scripts/scrape_sec.py *)

Module scrape_sec.

(** Lines 21-22 *)
Definition normalize_tickers (tickers : list string) : list string :=
  (λ t, Py.upper (Py.strip t)) <$> filter (λ t, Py.strip t ≠ EmptyString) tickers.

(** A character of the class [[A-Za-z0-9._-]]. *)
Definition is_safe (c : ascii) : bool :=
  ((65 <=? Py.code c) && (Py.code c <=? 90))
  || ((97 <=? Py.code c) && (Py.code c <=? 122))
  || ((48 <=? Py.code c) && (Py.code c <=? 57))
  || (Py.code c =? 46) || (Py.code c =? 95) || (Py.code c =? 45).

Definition is_unsafe (c : ascii) : bool := negb (is_safe c).

(** Lines 43-45: every run of other characters becomes one underscore,
    and the first 200 characters are kept. *)
Definition safe_filename (s : string) : string :=
  Py.slice (clean_docs.sub_runs is_unsafe 1 "_" EmptyString s) 0 200.

End scrape_sec.

(* ================================================================== *)
(** * Part II: the vocabulary of the properties                         *)
(* ================================================================== *)

(** What the statements of Part III are written with.  Nothing here is
    part of the scripts. *)

Section Vocabulary.
Import Py ask clean_docs.

(** Case-insensitive equality in the specification's words: the two
    strings have the same length and, position by position, the same
    character or the two cases of one letter. *)
Definition same_letter (c d : ascii) : bool :=
  (code c =? code d)
  || (is_lower c && (code d + 32 =? code c))
  || (is_lower d && (code c + 32 =? code d)).

Fixpoint ci_equal (s t : string) : bool :=
  match s, t with
  | EmptyString, EmptyString => true
  | String c s', String d t' => same_letter c d && ci_equal s' t'
  | _, _ => false
  end.

(** A metadata field matches a value: the field is present and equals
    the value case-insensitively. *)
Definition field_matches (field : option string) (v : string) : bool :=
  match field with
  | Some f => ci_equal f v
  | None => false
  end.

(** [a] may stand before [b] in a descending order. *)
Definition desc {A : Type} (key : A → Q) (a b : A) : Prop := (key b <= key a)%Q.

(** A dictionary whose keys are [ks], without repetition, and whose
    value at [k] is [G k]. *)
Definition tabulate {K V : Type} (G : K → list V) (ks : list K) : list (K * list V) :=
  (λ k, (k, G k)) <$> ks.

(** The source URL of a hit when it has one that is not empty. *)
Definition nonempty_url (h : hit) : option string :=
  match hit_url h with
  | Some (String c u) => Some (String c u)
  | _ => None
  end.

(** The hits left by the two metadata filters. *)
Definition filtered (a : args) (hits : list hit) : list hit :=
  filter_doc_type (doc_type_arg a) (filter_ticker (ticker_arg a) hits).

(** A run sends a chat-completion request. *)
Definition sends_chat (trace : list event) : Prop :=
  ∃ q c, ChatCompletion q c ∈ trace.

(** [a] is an earlier day than [b]. *)
Definition date_lt (a b : date) : Prop :=
  year a < year b
  ∨ (year a = year b
     ∧ (month a < month b ∨ (month a = month b ∧ day a < day b))).

(** [d] is a latest date of the list [ds]. *)
Definition latest (ds : list date) (d : date) : Prop :=
  d ∈ ds ∧ ∀ d', d' ∈ ds → ¬ date_lt d d'.

(** The parseable filing dates of a list of hits. *)
Definition dates_of (hs : list hit) : list date :=
  omap (λ x, parse_date (filing_date (hit_meta x))) hs.

(** The hits whose source URL is [k], in hit order. *)
Definition group (hits : list hit) (k : option string) : list hit :=
  filter (λ h, hit_url h = k) hits.

(** A text of [n] characters. *)
Fixpoint text_of_length (n : nat) : string :=
  match n with
  | O => EmptyString
  | S n' => String "a" (text_of_length n')
  end.

(** The [k]-th window of the text: it starts [k] steps of
    [chunk_size - overlap] into the text and is [chunk_size] characters
    long, or shorter when the text ends before. *)
Definition window (text : string) (chunk_size overlap : Z) (k : nat) : string :=
  slice text (Z.of_nat k * (chunk_size - overlap))%Z
    (Z.min (Z.of_nat k * (chunk_size - overlap) + chunk_size)
       (Z.of_nat (String.length text))).

(** The windows are trimmed, and those that are empty then are dropped. *)
Definition kept (ws : list string) : list string :=
  filter (λ w, w ≠ EmptyString) (strip <$> ws).

(** No element of the store has the chunk_id of [c]. *)
Definition fresh (store : list item) (c : item) : Prop :=
  Forall (λ x, chunk_id x ≠ chunk_id c) store.

(** The [raw_html] field is missing (or null), or empty. *)
Definition no_html (raw : raw_item) : Prop :=
  raw_html raw = None ∨ raw_html raw = Some EmptyString.

End Vocabulary.

(** Equality of scores and freshness of a chunk can be decided, so both
    can filter a list. *)
#[local] Instance Qeq_decision (x y : Q) : Decision (x == y)%Q := Qeq_dec x y.

#[local] Instance fresh_dec store c : Decision (fresh store c).
Proof. unfold fresh. apply _. Defined.

(* ================================================================== *)
(** * Part III: properties                                              *)
(* ================================================================== *)

(** ** Strings *)

Section Strings.
Import Py.

Lemma code_inj c d : code c = code d → c = d.
Proof.
  unfold code. intros H.
  rewrite <- (ascii_nat_embedding c), <- (ascii_nat_embedding d).
  by rewrite H.
Qed.

Lemma code_bounded c : code c < 256.
Proof. apply nat_ascii_bounded. Qed.

Lemma code_upper_char c :
  code (upper_char c) = if is_lower c then code c - 32 else code c.
Proof.
  unfold upper_char. destruct (is_lower c); [|done].
  unfold code at 1. apply nat_ascii_embedding.
  pose proof (code_bounded c). lia.
Qed.

Lemma upper_char_same_letter c d :
  upper_char c = upper_char d ↔ same_letter c d = true.
Proof.
  split.
  - intros H. apply (f_equal code) in H. rewrite !code_upper_char in H.
    unfold same_letter, is_lower in *.
    repeat match goal with
           | |- context [?a <=? ?b] => destruct (Nat.leb_spec a b)
           | |- context [?a =? ?b] => destruct (Nat.eqb_spec a b)
           | H : context [?a <=? ?b] |- _ => destruct (Nat.leb_spec a b)
           end; simpl in *; try done; lia.
  - intros H. apply code_inj. rewrite !code_upper_char.
    unfold same_letter, is_lower in *.
    repeat match goal with
           | H : context [?a <=? ?b] |- _ => destruct (Nat.leb_spec a b)
           | H : context [?a =? ?b] |- _ => destruct (Nat.eqb_spec a b)
           | |- context [?a <=? ?b] => destruct (Nat.leb_spec a b)
           end; simpl in *; try done; lia.
Qed.

(** Comparing the upper-cased strings is case-insensitive equality. *)
Lemma upper_eq_ci_equal s t : upper s = upper t ↔ ci_equal s t = true.
Proof.
  revert t. induction s as [|c s IH]; intros [|d t]; simpl; try done.
  rewrite andb_true_iff, <- IH, <- upper_char_same_letter.
  split; [by intros [= -> ->] | by intros [-> ->]].
Qed.

Lemma ci_equal_empty_r s : ci_equal s EmptyString = true → s = EmptyString.
Proof. by destruct s. Qed.

End Strings.

(** ** ask.py: the metadata filters *)

Section Filters.
Import Py ask.

Lemma strip_nonempty_truthy t : strip t ≠ EmptyString → truthy (Some t) = true.
Proof. by destruct t. Qed.

Lemma upper_field_matches field v :
  v ≠ EmptyString →
  upper (or_empty field) = upper v ↔ field_matches field v = true.
Proof.
  intros Hv. rewrite upper_eq_ci_equal. destruct field as [f|]; simpl; [done|].
  destruct v; naive_solver.
Qed.

Lemma filter_ticker_matches t hits :
  strip t ≠ EmptyString →
  filter_ticker (Some t) hits
  = filter (λ h, field_matches (ticker (hit_meta h)) (strip t) = true) hits.
Proof.
  intros Ht. unfold filter_ticker. rewrite strip_nonempty_truthy by done.
  apply list_filter_iff. intros h. by apply upper_field_matches.
Qed.

Lemma filter_doc_type_matches d hits :
  strip d ≠ EmptyString →
  filter_doc_type (Some d) hits
  = filter (λ h, field_matches (doc_type (hit_meta h)) (strip d) = true) hits.
Proof.
  intros Hd. unfold filter_doc_type. rewrite strip_nonempty_truthy by done.
  apply list_filter_iff. intros h. by apply upper_field_matches.
Qed.

(** C2, as the claim states it, fails: the requested value is trimmed
    before the comparison, so the request [" aapl"] keeps a chunk whose
    ticker is ["AAPL"], and the two are not equal in any case. *)
Lemma C2_counterexample :
  let h : hit := (1%Q, Item None "text" (Meta (Some "AAPL") None None None)) in
  filter_ticker (Some " aapl") [h] = [h]
  ∧ filter (λ h, field_matches (ticker (hit_meta h)) " aapl" = true) [h] = [].
Proof. split; reflexivity. Qed.

(** The same trimming turns a request of blanks into the empty string,
    which is what a missing ticker is read as. *)
Example blank_request_keeps_missing_ticker :
  let h : hit := (1%Q, Item None "text" (Meta None None None None)) in
  filter_ticker (Some " ") [h] = [h].
Proof. reflexivity. Qed.

(** C2 (amended).  For a ticker request [t] and a document-type request
    [d] that are not blank: the hits that survive the ticker filter are,
    in their order, exactly the hits whose ticker is present and equals
    [t] without its surrounding whitespace, case-insensitively; the same
    for the document type; and with both filters a hit survives exactly
    when it passes both. *)
Theorem C2_filters_exact_case_insensitive (t d : string) (hits : list hit) :
  strip t ≠ EmptyString → strip d ≠ EmptyString →
  filter_ticker (Some t) hits
    = filter (λ h, field_matches (ticker (hit_meta h)) (strip t) = true) hits
  ∧ filter_doc_type (Some d) hits
    = filter (λ h, field_matches (doc_type (hit_meta h)) (strip d) = true) hits
  ∧ filter_doc_type (Some d) (filter_ticker (Some t) hits)
    = filter (λ h, field_matches (ticker (hit_meta h)) (strip t) = true
                   ∧ field_matches (doc_type (hit_meta h)) (strip d) = true) hits
  ∧ (∀ h, h ∈ filter_doc_type (Some d) (filter_ticker (Some t) hits) →
       ∃ ft fd, ticker (hit_meta h) = Some ft ∧ doc_type (hit_meta h) = Some fd).
Proof.
  intros Ht Hd.
  assert (Hboth : filter_doc_type (Some d) (filter_ticker (Some t) hits)
    = filter (λ h, field_matches (ticker (hit_meta h)) (strip t) = true
                   ∧ field_matches (doc_type (hit_meta h)) (strip d) = true) hits).
  { rewrite filter_doc_type_matches, filter_ticker_matches by done.
    rewrite list_filter_filter. apply list_filter_iff. intros h. tauto. }
  split_and!; [by apply filter_ticker_matches | by apply filter_doc_type_matches | done |].
  intros h. rewrite Hboth, list_elem_of_filter. intros [[H1 H2] _].
  destruct (ticker (hit_meta h)), (doc_type (hit_meta h)); naive_solver.
Qed.

Lemma C2_filters_witness :
  let h1 : hit := (1%Q, Item None "a" (Meta (Some "aapl") (Some "8-K") None None)) in
  let h2 : hit := (1%Q, Item None "b" (Meta (Some "AAPL") None None None)) in
  let h3 : hit := (1%Q, Item None "c" (Meta (Some "AAPLX") (Some "8-k") None None)) in
  filter_doc_type (Some "8-k ") (filter_ticker (Some " Aapl") [h1; h2; h3]) = [h1].
Proof.
  intros h1 h2 h3.
  destruct (C2_filters_exact_case_insensitive " Aapl" "8-k " [h1; h2; h3])
    as (_ & _ & -> & _); [vm_compute; discriminate | vm_compute; discriminate |].
  reflexivity.
Defined.

End Filters.

(** ** ask.py: ranking *)

Section Ranking.
Import Py ask.

Context {A : Type} (key : A → Q).

Lemma insert_desc_perm x l : insert_desc key x l ≡ₚ x :: l.
Proof.
  induction l as [|y l IH]; simpl; [done|].
  destruct (Qle_bool (key y) (key x)); [done|].
  rewrite IH. apply Permutation_swap.
Qed.

Lemma sorted_desc_perm l : sorted_desc key l ≡ₚ l.
Proof.
  induction l as [|x l IH]; simpl; [done|].
  by rewrite insert_desc_perm, IH.
Qed.

Lemma insert_desc_sorted x l :
  StronglySorted (desc key) l → StronglySorted (desc key) (insert_desc key x l).
Proof.
  induction 1 as [|y l Hl IH Hy]; simpl.
  - by repeat constructor.
  - destruct (Qle_bool (key y) (key x)) eqn:Hle.
    + apply Qle_bool_iff in Hle.
      constructor; [by constructor|]. constructor; [done|].
      eapply Forall_impl; [exact Hy|]. unfold desc. intros z Hz.
      by apply Qle_trans with (key y).
    + constructor; [done|]. rewrite insert_desc_perm. constructor; [|done].
      unfold desc. apply Qlt_le_weak, Qnot_le_lt. intros Hle'.
      apply Qle_bool_iff in Hle'. congruence.
Qed.

Lemma sorted_desc_sorted l : StronglySorted (desc key) (sorted_desc key l).
Proof.
  induction l as [|x l IH]; simpl; [constructor | by apply insert_desc_sorted].
Qed.

(** Insertion never lets an element overtake another with an equal key. *)
Lemma insert_desc_stable (s : Q) x l :
  filter (λ a, (key a == s)%Q) (insert_desc key x l)
  = filter (λ a, (key a == s)%Q) (x :: l).
Proof.
  induction l as [|y l IH]; simpl; [done|].
  destruct (Qle_bool (key y) (key x)) eqn:Hle; [done|].
  rewrite filter_cons, IH, !filter_cons.
  destruct (decide (key y == s)%Q) as [Hy|Hy], (decide (key x == s)%Q) as [Hx|Hx];
    try done.
  exfalso. assert (Qle_bool (key y) (key x) = true); [|congruence].
  apply Qle_bool_iff. rewrite Hx, Hy. apply Qle_refl.
Qed.

Lemma sorted_desc_stable (s : Q) l :
  filter (λ a, (key a == s)%Q) (sorted_desc key l)
  = filter (λ a, (key a == s)%Q) l.
Proof.
  induction l as [|x l IH]; simpl; [done|].
  by rewrite insert_desc_stable, !filter_cons, IH.
Qed.

Lemma slice_to_take (l : list A) (m : Z) :
  (0 ≤ m)%Z → slice_to l m = take (Z.to_nat m) l.
Proof.
  intros Hm. unfold slice_to, clip.
  destruct (Z.ltb_spec m 0); [lia|].
  destruct (Z.le_ge_cases m (Z.of_nat (length l))).
  - by rewrite Z.min_l.
  - rewrite Z.min_r, Nat2Z.id by done.
    rewrite !take_ge; [done | lia | done].
Qed.

End Ranking.

Section RankingTheorem.
Import Py ask.


(** C3.  For every candidate list and every [max_chunks >= 0], the ranked
    list has length [min max_chunks (number of candidates)], is in
    descending order of score, is made of candidates, and for each score
    value the returned hits with that score are, in their order, the
    first of the candidates with that score in retrieval order: equal
    scores keep their relative retrieval order. *)
Theorem C3_rank_length_sorted_stable (hits : list hit) (max_chunks : Z) :
  (0 ≤ max_chunks)%Z →
  length (rank hits max_chunks) = Z.to_nat max_chunks `min` length hits
  ∧ StronglySorted (λ a b, (score b <= score a)%Q) (rank hits max_chunks)
  ∧ rank hits max_chunks ⊆+ hits
  ∧ ∀ s : Q,
      filter (λ h, (score h == s)%Q) (rank hits max_chunks)
      `prefix_of` filter (λ h, (score h == s)%Q) hits.
Proof.
  intros Hm. unfold rank. rewrite slice_to_take by done.
  pose proof (sorted_desc_sorted score hits) as Hs.
  pose proof (sorted_desc_perm score hits) as Hp.
  split_and!.
  - by rewrite length_take, Hp.
  - rewrite <- (take_drop (Z.to_nat max_chunks) (sorted_desc score hits)) in Hs.
    by apply StronglySorted_app_1_l in Hs.
  - rewrite <- Hp at 2. apply sublist_submseteq, sublist_take.
  - intros s. rewrite <- (sorted_desc_stable score s hits).
    rewrite <- (take_drop (Z.to_nat max_chunks) (sorted_desc score hits)) at 2.
    rewrite filter_app. by eexists.
Qed.

(** Three candidates, two of them with the same score, cut to two. *)
Lemma C3_rank_witness :
  let a : hit := ((1 # 2)%Q, Item (Some "a") "first" (Meta None None None None)) in
  let b : hit := ((9 # 10)%Q, Item (Some "b") "second" (Meta None None None None)) in
  let c : hit := ((2 # 4)%Q, Item (Some "c") "third" (Meta None None None None)) in
  (0 ≤ 2)%Z
  ∧ rank [a; b; c] 2 = [b; a]
  ∧ length (rank [a; b; c] 2) = Z.to_nat 2 `min` length [a; b; c].
Proof.
  intros a b c. split; [lia|]. split; [reflexivity|].
  apply (C3_rank_length_sorted_stable [a; b; c] 2). lia.
Defined.

(** A negative [max_chunks] is a slice bound counted from the end. *)
Example rank_negative_max_chunks :
  let a : hit := ((1 # 2)%Q, Item (Some "a") "first" (Meta None None None None)) in
  let b : hit := ((9 # 10)%Q, Item (Some "b") "second" (Meta None None None None)) in
  rank [a; b] (-1) = [b].
Proof. reflexivity. Qed.

End RankingTheorem.

(** ** Insertion-ordered dictionaries *)

Section Dicts.
Import Py.
Context {K : Type} `{EqDecision K}.

Lemma fromkeys_snoc (l : list K) k :
  fromkeys (l ++ [k]) = setdefault_key (fromkeys l) k.
Proof. unfold fromkeys. by rewrite fold_left_app. Qed.

Lemma elem_of_fromkeys (l : list K) k : k ∈ fromkeys l ↔ k ∈ l.
Proof.
  induction l as [|y l IH] using rev_ind; [done|].
  rewrite fromkeys_snoc. unfold setdefault_key.
  case_decide; set_solver.
Qed.

Lemma NoDup_fromkeys (l : list K) : NoDup (fromkeys l).
Proof.
  induction l as [|y l IH] using rev_ind; [constructor|].
  rewrite fromkeys_snoc. unfold setdefault_key. case_decide; [done|].
  apply NoDup_app. split_and!; [done | set_solver | apply NoDup_singleton].
Qed.

(** The keys of the dictionary stand in the order of their first
    occurrence: what stands before a key [k] are the keys of the part of
    the list before the first [k]. *)
Lemma fromkeys_split (l r1 r2 : list K) k :
  fromkeys l = r1 ++ k :: r2 →
  ∃ l1 l2, l = l1 ++ k :: l2 ∧ (k ∉ l1) ∧ fromkeys l1 = r1.
Proof.
  revert r2. induction l as [|y l IH] using rev_ind; intros r2.
  { intros H. by destruct r1. }
  rewrite fromkeys_snoc. unfold setdefault_key. case_decide as Hy.
  - intros (l1 & l2 & -> & ? & ?)%IH.
    exists l1, (l2 ++ [y]). by rewrite <- app_assoc.
  - intros Heq.
    assert (r2 = [] ∨ ∃ r2' z, r2 = r2' ++ [z]) as [->|(r2' & z & ->)].
    { destruct r2 as [|z r2' _] using rev_ind; eauto. }
    + apply app_inj_tail in Heq as [<- <-].
      exists l, []. by rewrite elem_of_fromkeys in Hy.
    + rewrite app_comm_cons, app_assoc in Heq.
      apply app_inj_tail in Heq as [Heq <-].
      apply IH in Heq as (l1 & l2 & -> & ? & ?).
      exists l1, (l2 ++ [y]). by rewrite <- app_assoc.
Qed.

Context {V : Type}.

Lemma dict_get_tabulate (G : K → list V) ks k :
  dict_get (tabulate G ks) k = if decide (k ∈ ks) then G k else [].
Proof.
  induction ks as [|y ks IH].
  - destruct (decide (k ∈ [])); [set_solver | done].
  - cbn [tabulate fmap list_fmap dict_get]. fold (tabulate G ks). rewrite IH.
    destruct (decide (y = k)), (decide (k ∈ ks)), (decide (k ∈ y :: ks));
      set_solver.
Qed.

Lemma dict_append_tabulate (G : K → list V) ks k v :
  NoDup ks →
  dict_append (tabulate G ks) k v
  = tabulate (λ k', if decide (k' = k) then G k' ++ [v] else G k') ks
    ++ (if decide (k ∈ ks) then [] else [(k, [v])]).
Proof.
  induction 1 as [|y ks Hy Hks IH].
  - destruct (decide (k ∈ [])); [set_solver | done].
  - cbn [tabulate fmap list_fmap dict_append]. fold (tabulate G ks).
    fold (tabulate (λ k', if decide (k' = k) then G k' ++ [v] else G k') ks).
    destruct (decide (y = k)) as [->|Hne].
    + rewrite decide_True by set_solver. rewrite app_nil_r. f_equal.
      apply list_fmap_ext. intros i k' Hk'%list_elem_of_lookup_2.
      rewrite decide_False; [done | by intros ->].
    + rewrite IH. f_equal. f_equal.
      destruct (decide (k ∈ ks)).
      * by rewrite decide_True by set_solver.
      * by rewrite decide_False by set_solver.
Qed.

End Dicts.

(** ** ask.py: the list of sources *)

Section Sources.
Import Py ask.

Lemma nonempty_url_Some h u :
  nonempty_url h = Some u ↔ u ≠ EmptyString ∧ hit_url h = Some u.
Proof.
  unfold nonempty_url. destruct (hit_url h) as [[|c v]|]; naive_solver.
Qed.

Lemma sources_omap hits : sources hits = omap nonempty_url hits.
Proof.
  induction hits as [|h hits IH]; simpl; [done|].
  unfold nonempty_url. destruct (hit_url h) as [[|c v]|]; simpl; by rewrite IH.
Qed.

Lemma sources_all_truthy hits :
  filter (λ u, truthy (Some u) = true) (sources hits) = sources hits.
Proof.
  induction hits as [|h hits IH]; [done|]. cbn [sources].
  destruct (hit_url h) as [[|c v]|]; cbn [truthy or_empty]; [done| |done].
  rewrite filter_cons_True by done. f_equal. exact IH.
Qed.

Lemma source_list_fromkeys hits :
  source_list hits = take 5 (fromkeys (omap nonempty_url hits)).
Proof.
  unfold source_list.
  by rewrite sources_all_truthy, sources_omap, slice_to_take.
Qed.

Lemma omap_split {A B} (f : A → option B) l l1 y l2 :
  omap f l = l1 ++ y :: l2 →
  ∃ k1 x k2, l = k1 ++ x :: k2 ∧ omap f k1 = l1 ∧ f x = Some y ∧ omap f k2 = l2.
Proof.
  revert l1. induction l as [|a l IH]; intros l1; simpl.
  { by destruct l1. }
  destruct (f a) as [b|] eqn:Hfa; simpl.
  - destruct l1 as [|b' l1]; simpl.
    + intros [= -> <-]. exists [], a, l. by rewrite Hfa.
    + intros [= -> (k1 & x & k2 & -> & <- & ? & ?)%IH].
      exists (a :: k1), x, k2. simpl. by rewrite Hfa.
  - intros (k1 & x & k2 & -> & <- & ? & ?)%IH.
    exists (a :: k1), x, k2. simpl. by rewrite Hfa.
Qed.

(** C6.  The reported sources of a returned chunk sequence: no URL is
    listed twice; their number is 5 or the number of distinct non-empty
    source URLs of the chunks, whichever is less; each is the non-empty
    source URL of a returned chunk; and they stand in the order of first
    appearance: the sources listed before a URL [u] are exactly the
    non-empty URLs of the chunks before the first chunk whose URL is [u].
    The bound 5 does not depend on [max_chunks]. *)
Theorem C6_source_list_dedup_ordered_cap5 (hits : list hit) :
  NoDup (source_list hits)
  ∧ length (source_list hits)
    = 5 `min` size (list_to_set (omap nonempty_url hits) : gset string)
  ∧ (∀ u, u ∈ source_list hits →
       u ≠ EmptyString ∧ ∃ h, h ∈ hits ∧ hit_url h = Some u)
  ∧ (∀ r1 u r2, source_list hits = r1 ++ u :: r2 →
       ∃ h1 h h2, hits = h1 ++ h :: h2 ∧ hit_url h = Some u
         ∧ (∀ h', h' ∈ h1 → hit_url h' ≠ Some u)
         ∧ ∀ w, w ∈ r1 ↔ w ≠ EmptyString ∧ ∃ h', h' ∈ h1 ∧ hit_url h' = Some w).
Proof.
  rewrite source_list_fromkeys.
  set (U := omap nonempty_url hits).
  pose proof (NoDup_fromkeys U) as Hnd.
  split_and!.
  - eapply sublist_NoDup; [done | apply sublist_take].
  - rewrite length_take. f_equal.
    rewrite <- (size_list_to_set (C := gset string) (fromkeys U)) by done.
    f_equal. apply set_eq. intros u.
    by rewrite !elem_of_list_to_set, elem_of_fromkeys.
  - intros u Hu%subseteq_take.
    apply elem_of_fromkeys, list_elem_of_omap in Hu as (h & Hh & Hu).
    apply nonempty_url_Some in Hu as [? ?]. eauto.
  - intros r1 u r2 Heq.
    assert (fromkeys U = r1 ++ u :: (r2 ++ drop 5 (fromkeys U))) as Hsplit.
    { rewrite <- (take_drop 5 (fromkeys U)) at 1. rewrite Heq.
      by rewrite <- app_assoc. }
    apply fromkeys_split in Hsplit as (l1 & l2 & HU & Hu & <-).
    apply omap_split in HU as (h1 & h & h2 & -> & <- & Hh & _).
    apply nonempty_url_Some in Hh as [Hne Hh].
    exists h1, h, h2. split_and!; [done | done | |].
    + intros h' Hh' Hurl. apply Hu, list_elem_of_omap.
      exists h'. split; [done|]. by apply nonempty_url_Some.
    + intros w. rewrite elem_of_fromkeys, list_elem_of_omap.
      setoid_rewrite nonempty_url_Some. naive_solver.
Qed.

(** Seven distinct URLs, the second repeated once: the repetition takes
    no place, and the first five distinct URLs are listed. *)
Example source_list_seven_urls :
  let h (u : string) : hit := (1%Q, Item None "t" (Meta None None None (Some u))) in
  source_list [h "u1"; h "u2"; h "u2"; h "u3"; h "u4"; h "u5"; h "u6"; h "u7"]
  = ["u1"; "u2"; "u3"; "u4"; "u5"].
Proof. reflexivity. Qed.

End Sources.

(** ** ask.py: the empty result *)

Section EmptyResult.
Import Py ask.

Lemma collect_hits_all_negative store res :
  Forall (λ r : Q * Z, (r.2 < 0)%Z) res → collect_hits store res = Some [].
Proof.
  induction 1 as [|[s idx] res Hneg _ IH]; simpl in *; [done|].
  destruct (Z.ltb_spec idx 0); [done | lia].
Qed.

Lemma filtered_nil a : filtered a [] = [].
Proof.
  unfold filtered, filter_doc_type, filter_ticker.
  by destruct (truthy (ticker_arg a)), (truthy (doc_type_arg a)).
Qed.

(** C4.  When the index returns nothing or only negative positions, or
    when the filters leave no hit, the run does not raise.  All it does
    is print two lines, the answer header (the text "=== Answer ==="
    between two line feeds) and "No matching documents found after
    filtering."; it sends no chat-completion request at all. *)
Theorem C4_empty_result_no_chat (a : args) (store : list item)
    (res : list (Q * Z)) (chat : string → string → string) :
  (Forall (λ r : Q * Z, (r.2 < 0)%Z) res
   ∨ ∃ hits, collect_hits store res = Some hits ∧ filtered a hits = []) →
  ∃ trace,
    main a store res chat = Some trace
    ∧ trace = [Print (String "010" ("=== Answer ===" +:+ String "010" EmptyString));
               Print "No matching documents found after filtering."]
    ∧ ¬ sends_chat trace.
Proof.
  intros H.
  assert (∃ hits, collect_hits store res = Some hits ∧ filtered a hits = [])
    as (hits & Hc & Hf).
  { destruct H as [H|H]; [|done]. exists [].
    by rewrite collect_hits_all_negative, filtered_nil. }
  eexists. split_and!.
  - unfold main. rewrite Hc. unfold filtered in Hf. rewrite Hf. reflexivity.
  - reflexivity.
  - intros (q & c & Hin). unfold no_match in Hin.
    rewrite !elem_of_cons in Hin. set_solver.
Qed.

(** A ticker filter that no hit passes, on a store of one chunk. *)
Lemma C4_empty_result_witness :
  let a := Args "What changed?" (Some "MSFT") None true 8 in
  let store := [Item (Some "d::chunk_0") "text" (Meta (Some "AAPL") (Some "8-K") None None)] in
  ∃ trace,
    main a store [((9 # 10)%Q, 0%Z); ((1 # 10)%Q, (-1)%Z)] (λ _ _, "reply") = Some trace
    ∧ trace = [Print (String "010" ("=== Answer ===" +:+ String "010" EmptyString));
               Print "No matching documents found after filtering."]
    ∧ ¬ sends_chat trace.
Proof.
  intros a store. apply C4_empty_result_no_chat.
  right. eexists. split; reflexivity.
Defined.

(** Outside C4: with hits left and [max_chunks = 0] the request is sent,
    and its context is empty. *)
Example chat_sent_with_empty_context_when_max_chunks_is_0 :
  let a := Args "What changed?" None None false 0 in
  let store := [Item (Some "d::chunk_0") "text" (Meta (Some "AAPL") (Some "8-K") None None)] in
  ∃ rest, main a store [((9 # 10)%Q, 0%Z)] (λ _ _, "reply")
          = Some (ChatCompletion "What changed?" EmptyString :: rest).
Proof. eexists. reflexivity. Qed.

End EmptyResult.

(** ** ask.py: the most recent document *)

Section Dates.
Import Py ask.

Lemma date_ltb_lt a b : date_ltb a b = true ↔ date_lt a b.
Proof.
  unfold date_ltb, date_lt.
  by rewrite !orb_true_iff, !andb_true_iff, !orb_true_iff, !andb_true_iff,
    !Nat.ltb_lt, !Nat.eqb_eq.
Qed.

Lemma date_ltb_nlt a b : date_ltb a b = false ↔ ¬ date_lt a b.
Proof. rewrite <- date_ltb_lt. by destruct (date_ltb a b). Qed.

Lemma date_lt_irrefl a : ¬ date_lt a a.
Proof. unfold date_lt. lia. Qed.

Lemma date_lt_trans a b c : date_lt a b → date_lt b c → date_lt a c.
Proof. unfold date_lt. lia. Qed.

Lemma date_total a b : ¬ date_lt a b → ¬ date_lt b a → a = b.
Proof.
  unfold date_lt. destruct a, b; simpl. intros ? ?. f_equal; lia.
Qed.

Lemma date_nlt_lt_trans a b c : ¬ date_lt b a → date_lt b c → date_lt a c.
Proof. unfold date_lt. lia. Qed.

Lemma date_nlt_trans a b c : ¬ date_lt a b → ¬ date_lt b c → ¬ date_lt a c.
Proof. unfold date_lt. lia. Qed.

Lemma max_from_latest cur l : latest (cur :: l) (max_from cur l).
Proof.
  revert cur. induction l as [|d l IH]; intros cur; simpl.
  - split; [set_solver|]. intros d' ->%list_elem_of_singleton.
    apply date_lt_irrefl.
  - destruct (IH (if date_ltb cur d then d else cur)) as [Hin Hmax].
    split.
    + destruct (date_ltb cur d); set_solver.
    + intros d' Hd'. destruct (date_ltb cur d) eqn:Hlt.
      * apply date_ltb_lt in Hlt.
        apply elem_of_cons in Hd' as [->|Hd']; [|by apply Hmax].
        intros Hlt'. eapply (Hmax d); [set_solver|].
        by eapply date_lt_trans.
      * apply date_ltb_nlt in Hlt.
        apply elem_of_cons in Hd' as [->|Hd']; [apply Hmax; set_solver|].
        apply elem_of_cons in Hd' as [->|Hd']; [|apply Hmax; set_solver].
        eapply date_nlt_trans; [|exact Hlt]. apply Hmax. set_solver.
Qed.

Lemma max_date_Some ds d : max_date ds = Some d → latest ds d.
Proof. destruct ds; [done|]. intros [= <-]. apply max_from_latest. Qed.

Lemma max_date_None ds : max_date ds = None ↔ ds = [].
Proof. by destruct ds. Qed.

Lemma latest_unique ds d d' : latest ds d → latest ds d' → d = d'.
Proof. intros [? ?] [? ?]. apply date_total; eauto. Qed.

End Dates.

Section MostRecent.
Import Py ask.

Lemma group_snoc hits h k :
  group (hits ++ [h]) k
  = if decide (k = hit_url h) then group hits k ++ [h] else group hits k.
Proof.
  unfold group. rewrite filter_app, filter_cons, filter_nil.
  destruct (decide (hit_url h = k)), (decide (k = hit_url h));
    try done; by rewrite ?app_nil_r.
Qed.

Lemma group_nil_not_elem hits k : k ∉ hit_url <$> hits → group hits k = [].
Proof.
  unfold group. induction hits as [|h hits IH]; [done|].
  rewrite fmap_cons, not_elem_of_cons. intros [Hne Hk].
  rewrite filter_cons, decide_False by done. by apply IH.
Qed.

(** The dictionary [by_url]: its keys are the source URLs in the order
    in which the hits first show them, and each key holds its hits. *)
Lemma group_by_url_tabulate hits :
  group_by_url hits = tabulate (group hits) (fromkeys (hit_url <$> hits)).
Proof.
  induction hits as [|h hits IH] using rev_ind; [done|].
  unfold group_by_url in *. rewrite fold_left_app. simpl. rewrite IH.
  rewrite dict_append_tabulate by apply NoDup_fromkeys.
  rewrite fmap_snoc, fromkeys_snoc. unfold setdefault_key.
  assert (∀ ks, tabulate (λ k', if decide (k' = hit_url h)
                                then group hits k' ++ [h] else group hits k') ks
                = tabulate (group (hits ++ [h])) ks) as ->.
  { intros ks. apply list_fmap_ext. intros _ k _. by rewrite group_snoc. }
  destruct (decide (hit_url h ∈ fromkeys (hit_url <$> hits))) as [Hin|Hin].
  - apply app_nil_r.
  - unfold tabulate. rewrite fmap_app. simpl. do 3 f_equal.
    rewrite group_snoc, decide_True by done.
    rewrite group_nil_not_elem; [done|]. by rewrite <- elem_of_fromkeys.
Qed.

Lemma select_best_snoc es e :
  select_best (es ++ [e]) = select_step (select_best es) e.
Proof. unfold select_best. by rewrite fold_left_app. Qed.

(** The loop keeps the first entry whose latest date is not exceeded:
    every entry before it is strictly older or has no date, no entry
    after it is later. *)
Lemma select_best_spec (es : list (option string * list hit)) :
  match (select_best es).2 with
  | None => (select_best es).1 = None ∧ Forall (λ e, group_dmax e.2 = None) es
  | Some d =>
      ∃ es1 items es2,
        es = es1 ++ ((select_best es).1, items) :: es2
        ∧ group_dmax items = Some d
        ∧ Forall (λ e, ∀ d', group_dmax e.2 = Some d' → date_lt d' d) es1
        ∧ Forall (λ e, ∀ d', group_dmax e.2 = Some d' → ¬ date_lt d d') es2
  end.
Proof.
  induction es as [|[k items] es IH] using rev_ind; [done|].
  rewrite select_best_snoc. unfold select_step. simpl.
  destruct (select_best es) as [u [d|]]; simpl in *.
  - destruct IH as (es1 & its & es2 & -> & Hd & H1 & H2).
    destruct (group_dmax items) as [dmax|] eqn:Hdmax; simpl.
    + destruct (date_ltb d dmax) eqn:Hlt; simpl.
      * apply date_ltb_lt in Hlt.
        exists (es1 ++ (u, its) :: es2), items, []. split_and!; try done.
        rewrite Forall_app, Forall_cons. split_and!.
        -- eapply Forall_impl; [exact H1|]. simpl. intros e He d' Hd'.
           eapply date_lt_trans; eauto.
        -- simpl. intros d' Hd'. congruence.
        -- eapply Forall_impl; [exact H2|]. simpl. intros e He d' Hd'.
           eapply date_nlt_lt_trans; eauto.
      * apply date_ltb_nlt in Hlt.
        exists es1, its, (es2 ++ [(k, items)]).
        rewrite <- app_assoc. split_and!; try done.
        rewrite Forall_app, Forall_singleton. split; [done|].
        simpl. intros d' Hd'. congruence.
    + exists es1, its, (es2 ++ [(k, items)]).
      rewrite <- app_assoc. split_and!; try done.
      rewrite Forall_app, Forall_singleton. split; [done|].
      simpl. intros d' Hd'. congruence.
  - destruct IH as [-> Hnone].
    destruct (group_dmax items) as [dmax|] eqn:Hdmax; simpl.
    + exists es, items, []. split_and!; try done.
      eapply Forall_impl; [exact Hnone|]. simpl. intros e He d' Hd'. congruence.
    + split; [done|]. rewrite Forall_app, Forall_singleton. done.
Qed.

End MostRecent.

Section MostRecentTheorems.
Import Py ask.

Lemma dates_of_elem hs d :
  d ∈ dates_of hs ↔ ∃ h, h ∈ hs ∧ parse_date (filing_date (hit_meta h)) = Some d.
Proof. apply list_elem_of_omap. Qed.

Lemma elem_of_group hits k h : h ∈ group hits k ↔ h ∈ hits ∧ hit_url h = k.
Proof. unfold group. rewrite list_elem_of_filter. tauto. Qed.

(** A dated hit gives its group a latest date, which is not earlier. *)
Lemma group_dmax_bound hits h d' :
  h ∈ hits → parse_date (filing_date (hit_meta h)) = Some d' →
  ∃ m, group_dmax (group hits (hit_url h)) = Some m ∧ ¬ date_lt m d'.
Proof.
  intros Hh Hd'.
  assert (d' ∈ dates_of (group hits (hit_url h))) as Hin.
  { apply dates_of_elem. exists h. by rewrite elem_of_group. }
  unfold group_dmax. fold (dates_of (group hits (hit_url h))).
  destruct (max_date (dates_of (group hits (hit_url h)))) as [m|] eqn:Hm.
  - exists m. split; [done|]. apply max_date_Some in Hm as [_ Hm]. by apply Hm.
  - apply max_date_None in Hm. rewrite Hm in Hin. set_solver.
Qed.

Lemma group_dmax_latest hits k d :
  group_dmax (group hits k) = Some d ↔ latest (dates_of (group hits k)) d.
Proof.
  unfold group_dmax. fold (dates_of (group hits k)). split.
  - apply max_date_Some.
  - intros Hl. destruct (max_date (dates_of (group hits k))) as [m|] eqn:Hm.
    + f_equal. eapply latest_unique; [by apply max_date_Some | done].
    + apply max_date_None in Hm. destruct Hl as [Hin _].
      rewrite Hm in Hin. set_solver.
Qed.

Lemma tabulate_split {V} (G : option string → list V) ks es1 u items es2 :
  tabulate G ks = es1 ++ (u, items) :: es2 →
  ∃ ks1 ks2, ks = ks1 ++ u :: ks2 ∧ items = G u
             ∧ es1 = tabulate G ks1 ∧ es2 = tabulate G ks2.
Proof.
  intros (ks1 & ks2' & -> & Heq & ->)%fmap_app_inv.
  destruct ks2' as [|u' ks2]; [done|]. injection Heq as -> -> ->.
  by exists ks1, ks2.
Qed.

Lemma Forall_tabulate {V} (G : option string → list V) ks
    (P : option string * list V → Prop) :
  Forall P (tabulate G ks) ↔ ∀ k, k ∈ ks → P (k, G k).
Proof. unfold tabulate. by rewrite Forall_fmap, Forall_forall. Qed.

(** The selection, read on the hit list: the latest date of all, held
    by the first group in hit order that attains it. *)
Lemma select_best_first_group (hits : list hit) :
  match (select_best (group_by_url hits)).2 with
  | None =>
      (select_best (group_by_url hits)).1 = None ∧ dates_of hits = []
  | Some d =>
      latest (dates_of hits) d
      ∧ ∃ before h after,
          hits = before ++ h :: after
          ∧ hit_url h = (select_best (group_by_url hits)).1
          ∧ latest (dates_of (group hits (hit_url h))) d
          ∧ ∀ h', h' ∈ before →
              hit_url h' ≠ hit_url h
              ∧ ¬ latest (dates_of (group hits (hit_url h'))) d
  end.
Proof.
  pose proof (select_best_spec (group_by_url hits)) as Hspec.
  rewrite group_by_url_tabulate in *.
  set (ks := fromkeys (hit_url <$> hits)) in *.
  destruct (select_best (tabulate (group hits) ks)) as [u [d|]]; simpl in *.
  - destruct Hspec as (es1 & items & es2 & Hes & Hd & H1 & H2).
    apply tabulate_split in Hes as (ks1 & ks2 & Hks & -> & -> & ->).
    rewrite Forall_tabulate in H1, H2. simpl in H1, H2.
    pose proof Hks as Hsplit.
    apply fromkeys_split in Hsplit as (l1 & l2 & Hurls & Hu & Hl1).
    apply fmap_app_inv in Hurls as (before & rest & -> & Hrest & ->).
    destruct rest as [|h after]; [done|]. injection Hrest as -> ->.
    assert (∀ h', h' ∈ before → hit_url h' ∈ ks1) as Hbefore.
    { intros h' Hh'. rewrite <- Hl1, elem_of_fromkeys.
      apply list_elem_of_fmap. eauto. }
    split.
    + split.
      * apply group_dmax_latest in Hd as [Hin _].
        apply dates_of_elem in Hin as (x & [Hx _]%elem_of_group & Hpx).
        apply dates_of_elem. eauto.
      * intros d' (x & Hx & Hpx)%dates_of_elem.
        destruct (group_dmax_bound _ _ _ Hx Hpx) as (m & Hm & Hmd').
        assert (hit_url x ∈ ks) as Hk.
        { apply elem_of_fromkeys, list_elem_of_fmap. eauto. }
        rewrite Hks, elem_of_app, elem_of_cons in Hk.
        destruct Hk as [Hk|[Hk|Hk]].
        -- specialize (H1 _ Hk _ Hm). intros Hlt. apply Hmd'.
           by eapply date_lt_trans.
        -- rewrite Hk in Hm. by replace d with m by congruence.
        -- specialize (H2 _ Hk _ Hm). by eapply date_nlt_trans.
    + exists before, h, after. split_and!; try done.
      * by apply group_dmax_latest.
      * intros h' Hh'. apply Hbefore in Hh' as Hk. split.
        -- intros Heq. apply Hu. rewrite <- Heq.
           apply list_elem_of_fmap. eauto.
        -- intros Hl%group_dmax_latest.
           by apply H1, date_lt_irrefl in Hl.
  - destruct Hspec as [-> Hnone]. split; [done|].
    rewrite Forall_tabulate in Hnone. simpl in Hnone.
    destruct (dates_of hits) as [|d' ds] eqn:Hds; [done|].
    assert (d' ∈ dates_of hits) as (x & Hx & Hpx)%dates_of_elem
      by (rewrite Hds; set_solver).
    destruct (group_dmax_bound _ _ _ Hx Hpx) as (m & Hm & _).
    rewrite Hnone in Hm; [done|].
    apply elem_of_fromkeys, list_elem_of_fmap. eauto.
Qed.

(** C5.  Either no candidate has a parseable filing date and nothing is
    selected, or the selection holds the latest filing date [d] of all
    candidates and the source URL of a group that attains it, and that
    group is the first such group in hit order: the candidates split at
    the first hit [h] of the selected group, and no hit before [h]
    belongs to a group whose latest date is [d].  The selection is a
    function of the hit list. *)
Theorem C5_tie_first_group_in_hit_order (hits : list hit) :
  match (select_best (group_by_url hits)).2 with
  | None =>
      (select_best (group_by_url hits)).1 = None ∧ dates_of hits = []
  | Some d =>
      latest (dates_of hits) d
      ∧ ∃ before h after,
          hits = before ++ h :: after
          ∧ hit_url h = (select_best (group_by_url hits)).1
          ∧ latest (dates_of (group hits (hit_url h))) d
          ∧ ∀ h', h' ∈ before →
              hit_url h' ≠ hit_url h
              ∧ ¬ latest (dates_of (group hits (hit_url h'))) d
  end.
Proof. exact (select_best_first_group hits). Qed.

(** Two source URLs with the same latest date: the one met first wins,
    whatever the scores are. *)
Example tie_goes_to_first_url :
  let h (s : Q) (u d : string) : hit :=
    (s, Item None "t" (Meta None None (Some d) (Some u))) in
  let hits := [h (1 # 10)%Q "u1" "2024-01-15"; h (9 # 10)%Q "u2" "2024-03-01";
               h (5 # 10)%Q "u3" "2024-03-01"; h (2 # 10)%Q "u1" "bad date"] in
  select_best (group_by_url hits) = (Some "u2", Some (Date 2024 3 1))
  ∧ most_recent_doc hits = [h (9 # 10)%Q "u2" "2024-03-01"].
Proof. split; reflexivity. Qed.

End MostRecentTheorems.

Section MostRecentSelection.
Import Py ask.

(** What lines 98-99 leave: the hits of the selected URL when that URL
    is a non-empty string, all hits otherwise. *)
Lemma most_recent_doc_spec (hits : list hit) :
  most_recent_doc hits
  = if truthy (select_best (group_by_url hits)).1
    then group hits (select_best (group_by_url hits)).1
    else hits.
Proof.
  unfold most_recent_doc. destruct (truthy _); [|done].
  rewrite group_by_url_tabulate at 1. rewrite dict_get_tabulate.
  case_decide as Hin; [done|].
  rewrite group_nil_not_elem; [done|]. by rewrite <- elem_of_fromkeys.
Qed.

(** No candidate has a parseable filing date: the candidates stay. *)
Lemma most_recent_doc_no_dates (hits : list hit) :
  dates_of hits = [] → most_recent_doc hits = hits.
Proof.
  intros Hnone. rewrite most_recent_doc_spec.
  pose proof (Hspec := select_best_spec (group_by_url hits)).
  destruct (select_best (group_by_url hits)) as [u [d|]]; simpl in *.
  - destruct Hspec as (es1 & items & es2 & Hes & Hd & _).
    rewrite group_by_url_tabulate in Hes.
    apply tabulate_split in Hes as (_ & _ & _ & -> & _).
    apply group_dmax_latest in Hd as [(x & [Hx _]%elem_of_group & Hpx)%dates_of_elem _].
    assert (d ∈ dates_of hits) as Hin by (apply dates_of_elem; eauto).
    rewrite Hnone in Hin. set_solver.
  - by destruct Hspec as [-> _].
Qed.

(** Some candidate has a parseable filing date and the selected group
    has a non-empty source URL [u]: the candidates become exactly the
    hits of that group, which all come from [u], and the group holds the
    latest filing date of all candidates. *)
Lemma most_recent_doc_selected (hits : list hit) (u : string) :
  dates_of hits ≠ [] →
  (select_best (group_by_url hits)).1 = Some u → u ≠ EmptyString →
  most_recent_doc hits = group hits (Some u)
  ∧ (∀ h, h ∈ most_recent_doc hits → hit_url h = Some u)
  ∧ ∃ d, latest (dates_of hits) d ∧ latest (dates_of (group hits (Some u))) d.
Proof.
  intros Hdates Hu Hne.
  assert (most_recent_doc hits = group hits (Some u)) as Heq.
  { rewrite most_recent_doc_spec, Hu. by destruct u. }
  split_and!; [done | |].
  - intros h. rewrite Heq, elem_of_group. tauto.
  - pose proof (select_best_first_group hits) as H5.
    destruct ((select_best (group_by_url hits)).2) as [d|].
    + destruct H5 as (Hd & before & h & after & _ & Hh & Hl & _).
      exists d. by rewrite Hh, Hu in Hl.
    + by destruct H5 as [_ ?].
Qed.

End MostRecentSelection.

Section MostRecentDefect.
Import Py ask.

(** C1.  The claim holds whenever the selected group has a non-empty
    source URL ([most_recent_doc_selected]) and whenever no candidate has
    a parseable date ([most_recent_doc_no_dates]).  It fails when the
    group with the latest date is the group of the chunks without a
    source URL: [best_url] is then [None], the value it has when nothing
    was selected, and the test [if best_url] leaves the candidates as
    they are.  Here the chunk without URL is filed on 2024-02-01 and the
    other on 2024-01-01; the group of the first is selected, and both
    chunks are returned. *)
Theorem C1_most_recent_skipped_for_missing_url :
  let h1 : hit := ((9 # 10)%Q,
    Item (Some "a::chunk_0") "new" (Meta (Some "AAPL") (Some "8-K") (Some "2024-02-01") None)) in
  let h2 : hit := ((8 # 10)%Q,
    Item (Some "b::chunk_0") "old"
      (Meta (Some "AAPL") (Some "8-K") (Some "2024-01-01") (Some "https://sec.example/b"))) in
  dates_of [h1; h2] = [Date 2024 2 1; Date 2024 1 1]
  ∧ select_best (group_by_url [h1; h2]) = (None, Some (Date 2024 2 1))
  ∧ group [h1; h2] None = [h1]
  ∧ most_recent_doc [h1; h2] = [h1; h2].
Proof. split_and!; reflexivity. Qed.

(** The same with an empty string for the source URL. *)
Example most_recent_skipped_for_empty_url :
  let h1 : hit := ((9 # 10)%Q,
    Item None "new" (Meta None None (Some "2024-02-01") (Some EmptyString))) in
  let h2 : hit := ((8 # 10)%Q,
    Item None "old" (Meta None None (Some "2024-01-01") (Some "https://sec.example/b"))) in
  most_recent_doc [h1; h2] = [h1; h2].
Proof. reflexivity. Qed.

(** The scenario of the specification: u2 is filed later than u1, and
    only its chunk is kept. *)
Example most_recent_scenario :
  let h (s : Q) (t u d : string) : hit :=
    (s, Item None t (Meta None None (Some d) (Some u))) in
  let A := h (9 # 10)%Q "A" "u1" "2024-01-01" in
  let B := h (5 # 10)%Q "B" "u1" "2024-01-01" in
  let C := h (8 # 10)%Q "C" "u2" "2024-02-01" in
  rank (most_recent_doc [A; B; C]) 5 = [C].
Proof. reflexivity. Qed.

End MostRecentDefect.

(** ** chunk_docs.py: fixed-window chunking *)

Section Chunking.
Import Py chunk_docs.
Open Scope Z_scope.

Implicit Types (text : string) (chunk_size overlap start : Z).

(** More rounds do not change a result. *)
Lemma chunk_loop_mono fuel fuel' text chunk_size overlap start chunks r :
  chunk_loop fuel text chunk_size overlap start chunks = Some r →
  (fuel ≤ fuel')%nat →
  chunk_loop fuel' text chunk_size overlap start chunks = Some r.
Proof.
  revert fuel' start chunks.
  induction fuel as [|fuel IH]; intros fuel' start chunks; [done|].
  destruct fuel' as [|fuel']; [lia|]. simpl.
  destruct (start <? _); [|done].
  destruct (_ =? _); [done|].
  intros H ?. apply IH; [done | lia].
Qed.

Lemma returns_unique text chunk_size overlap r r' :
  returns text chunk_size overlap r → returns text chunk_size overlap r' → r = r'.
Proof.
  intros [f Hf] [f' Hf']. unfold chunk_text in *.
  apply (chunk_loop_mono _ (f `max` f')%nat) in Hf; [|lia].
  apply (chunk_loop_mono _ (f `max` f')%nat) in Hf'; [|lia].
  congruence.
Qed.

Lemma returns_not_diverges text chunk_size overlap r :
  returns text chunk_size overlap r → ¬ diverges text chunk_size overlap.
Proof. intros [f Hf] Hd. by rewrite Hd in Hf. Qed.

(** When the window exceeds the overlap the cursor moves forward in
    every round, and the loop is left before the rounds run out. *)
Lemma chunk_loop_terminates fuel text chunk_size overlap start chunks :
  overlap < chunk_size → 0 ≤ start →
  Z.max 0 (Z.of_nat (String.length text) - start) < Z.of_nat fuel →
  ∃ r, chunk_loop fuel text chunk_size overlap start chunks = Some r.
Proof.
  intros Hlt. revert start chunks.
  induction fuel as [|fuel IH]; intros start chunks Hstart Hfuel; [lia|].
  simpl. destruct (Z.ltb_spec start (Z.of_nat (String.length text))); [|eauto].
  destruct (Z.eqb_spec (Z.min (start + chunk_size) (Z.of_nat (String.length text)))
              (Z.of_nat (String.length text))); [eauto|].
  apply IH; lia.
Qed.

(** When the overlap is not less than the window and the text is longer
    than the window, the cursor stays at 0. *)
Lemma chunk_loop_stuck fuel text chunk_size overlap chunks :
  chunk_size ≤ overlap →
  Z.max chunk_size 0 < Z.of_nat (String.length text) →
  chunk_loop fuel text chunk_size overlap 0 chunks = None.
Proof.
  intros Hle Hlen. revert chunks.
  induction fuel as [|fuel IH]; intros chunks; [done|].
  simpl. destruct (Z.ltb_spec 0 (Z.of_nat (String.length text))); [|lia].
  rewrite Z.add_0_l, Z.min_l by lia.
  destruct (Z.eqb_spec chunk_size (Z.of_nat (String.length text))); [lia|].
  rewrite Z.max_l by lia. apply IH.
Qed.

Lemma text_of_length_length n : String.length (text_of_length n) = n.
Proof. induction n; simpl; congruence. Qed.

Lemma chunk_text_terminates text chunk_size overlap :
  overlap < chunk_size → ∃ r, returns text chunk_size overlap r.
Proof.
  intros Hlt.
  destruct (chunk_loop_terminates (S (String.length text)) text chunk_size
              overlap 0 []) as [r Hr]; [done | lia | lia |].
  exists r. by exists (S (String.length text)).
Qed.

Lemma chunk_text_diverges text chunk_size overlap :
  chunk_size ≤ overlap →
  Z.max chunk_size 0 < Z.of_nat (String.length text) →
  diverges text chunk_size overlap.
Proof. intros ? ? fuel. by apply chunk_loop_stuck. Qed.

(** C9, as the claim states it, fails in its second half: the bound
    [0 <= overlap] is not needed for termination.  With a window of 2
    and an overlap of -1 the precondition does not hold and [chunk_text]
    returns on every text. *)
Lemma C9_counterexample :
  (∀ text, ∃ r, returns text 2 (-1) r) ∧ ¬ (0 ≤ -1 < 2).
Proof. split; [|lia]. intros text. by apply chunk_text_terminates. Qed.

(** On the text "abc" it returns the one chunk "ab": the cursor jumps
    from 0 past the end of the window, to 3. *)
Example chunk_text_negative_overlap :
  chunk_text 2 "abc" 2 (-1) = Some ["ab"].
Proof. reflexivity. Qed.

(** C9 (amended).  [chunk_text] returns a list of chunks for every input
    string exactly when [overlap < chunk_size]; in particular it does
    under [0 <= overlap < chunk_size].  When [overlap >= chunk_size] it
    loops forever on every text longer than the window. *)
Theorem C9_chunk_text_terminates_iff (chunk_size overlap : Z) :
  ((∀ text, ∃ r, returns text chunk_size overlap r) ↔ overlap < chunk_size)
  ∧ (∀ text, chunk_size ≤ overlap →
       Z.max chunk_size 0 < Z.of_nat (String.length text) →
       diverges text chunk_size overlap).
Proof.
  split; [split|].
  - intros Hall. destruct (Z.lt_ge_cases overlap chunk_size) as [|Hge]; [done|].
    destruct (Hall (text_of_length (S (Z.to_nat (Z.max chunk_size 0))))) as [r Hr].
    apply returns_not_diverges in Hr. destruct Hr.
    apply chunk_text_diverges; [done|]. rewrite text_of_length_length. lia.
  - intros Hlt text. by apply chunk_text_terminates.
  - intros text. apply chunk_text_diverges.
Qed.

Lemma kept_cons w ws :
  kept (w :: ws)
  = (if decide (strip w = EmptyString) then [] else [strip w]) ++ kept ws.
Proof.
  unfold kept. rewrite fmap_cons, filter_cons.
  destruct (decide (strip w = EmptyString)), (decide (strip w ≠ EmptyString)); done.
Qed.

Lemma chunk_loop_windows fuel text chunk_size overlap (k : nat) chunks :
  0 ≤ overlap < chunk_size →
  Z.of_nat k * (chunk_size - overlap) < Z.of_nat (String.length text) →
  Z.of_nat (String.length text) - Z.of_nat k * (chunk_size - overlap) < Z.of_nat fuel →
  ∃ j : nat,
    (0 < j)%nat
    ∧ chunk_loop fuel text chunk_size overlap
        (Z.of_nat k * (chunk_size - overlap)) chunks
      = Some (chunks ++ kept (window text chunk_size overlap <$> seq k j))
    ∧ Z.of_nat (String.length text)
      ≤ (Z.of_nat k + Z.of_nat j - 1) * (chunk_size - overlap) + chunk_size
    ∧ ∀ i : nat, (k ≤ i)%nat → (S i < k + j)%nat →
        Z.of_nat i * (chunk_size - overlap) + chunk_size
        < Z.of_nat (String.length text).
Proof.
  intros Hov. revert k chunks.
  induction fuel as [|fuel IH]; intros k chunks Hstart Hfuel; [lia|].
  set (n := Z.of_nat (String.length text)) in *.
  set (step := chunk_size - overlap) in *.
  cbn [chunk_loop]. fold n.
  destruct (Z.ltb_spec (Z.of_nat k * step) n) as [_|]; [|lia].
  assert (∀ rest, (if decide (strip (slice text (Z.of_nat k * step)
                        (Z.min (Z.of_nat k * step + chunk_size) n)) = EmptyString)
                   then chunks
                   else chunks ++ [strip (slice text (Z.of_nat k * step)
                        (Z.min (Z.of_nat k * step + chunk_size) n))]) ++ kept rest
                  = chunks ++ kept (window text chunk_size overlap k :: rest))
    as Hacc.
  { intros rest. rewrite kept_cons. unfold window. fold n step.
    case_decide; [done|]. by rewrite <- app_assoc. }
  destruct (Z.eqb_spec (Z.min (Z.of_nat k * step + chunk_size) n) n) as [Hend|Hend].
  - exists 1%nat. split_and!; [lia | | lia | lia].
    f_equal. change (window text chunk_size overlap <$> seq k 1)
      with [window text chunk_size overlap k].
    rewrite <- (Hacc []). change (kept []) with (@nil string).
    by rewrite app_nil_r.
  - assert (Z.max 0 (Z.min (Z.of_nat k * step + chunk_size) n - overlap)
            = Z.of_nat (S k) * step) as -> by (unfold step in *; lia).
    edestruct (IH (S k)) as (j & Hj & -> & Hlast & Hfull);
      [unfold step in *; lia | unfold step in *; lia |].
    exists (S j). split_and!; [lia | | lia |].
    + f_equal. by rewrite Hacc.
    + intros i Hki Hij. destruct (decide (i = k)) as [->|]; [lia|].
      apply Hfull; lia.
Qed.

(** C8.  For [0 <= overlap < chunk_size], [chunk_text] returns the
    trimmed, non-empty ones among the windows [0 .. K-1], where window
    [k] starts at [k * (chunk_size - overlap)]; every window but the last
    is [chunk_size] characters long, the last one ends where the text
    ends and is what remains of it, and there is no window exactly when
    the text is empty. *)
Theorem C8_chunk_text_windows text chunk_size overlap :
  0 ≤ overlap < chunk_size →
  ∃ K : nat,
    returns text chunk_size overlap
      (kept (window text chunk_size overlap <$> seq 0 K))
    ∧ (K = 0%nat ↔ text = EmptyString)
    ∧ (∀ k : nat, (S k < K)%nat →
         Z.of_nat k * (chunk_size - overlap) + chunk_size
         < Z.of_nat (String.length text))
    ∧ (∀ k : nat, S k = K →
         Z.of_nat (String.length text)
         ≤ Z.of_nat k * (chunk_size - overlap) + chunk_size
         ∧ window text chunk_size overlap k
           = slice text (Z.of_nat k * (chunk_size - overlap))
               (Z.of_nat (String.length text))).
Proof.
  intros Hov. destruct text as [|c text'] eqn:Htext.
  { exists 0%nat. split_and!; [by exists 1%nat | done | lia | lia]. }
  rewrite <- Htext.
  assert (0 < Z.of_nat (String.length text)) as Hlen by (subst; simpl; lia).
  destruct (chunk_loop_windows (S (String.length text)) text chunk_size
              overlap 0 []) as (K & HK & Hrun & Hlast & Hfull); [lia ..|].
  exists K. split_and!.
  - by exists (S (String.length text)).
  - split; [lia | by subst].
  - intros k Hk. apply Hfull; lia.
  - intros k <-. split; [lia|].
    unfold window. f_equal. lia.
Qed.

(** A window of 4 characters moved on by 3: the text of 14 characters
    has five windows, and the blanks at the rim of a window are cut. *)
Lemma C8_chunk_text_witness :
  0 ≤ 1 < 4
  ∧ chunk_text 15 "ab    cdefghij" 4 1 = Some ["ab"; "c"; "cdef"; "fghi"; "ij"]
  ∧ ∃ K : nat,
      returns "ab    cdefghij" 4 1 (kept (window "ab    cdefghij" 4 1 <$> seq 0 K))
      ∧ (K = 0%nat ↔ "ab    cdefghij" = EmptyString)
      ∧ (∀ k : nat, (S k < K)%nat → Z.of_nat k * (4 - 1) + 4 < 14)
      ∧ (∀ k : nat, S k = K →
           14 ≤ Z.of_nat k * (4 - 1) + 4
           ∧ window "ab    cdefghij" 4 1 k
             = slice "ab    cdefghij" (Z.of_nat k * (4 - 1)) 14).
Proof.
  split; [lia|]. split; [reflexivity|].
  apply (C8_chunk_text_windows "ab    cdefghij" 4 1). lia.
Defined.

(** A window of blanks leaves no chunk. *)
Example chunk_text_drops_blank_window :
  chunk_text 10 "ab      cd" 4 0 = Some ["ab"; "cd"].
Proof. reflexivity. Qed.

End Chunking.

(** ** update_faiss.py: the incremental update *)

Section IndexUpdate.
Import Py update_faiss.

Lemma take_add_app {A} (a b : nat) (l : list A) :
  take (a + b) l = take a l ++ take b (drop a l).
Proof.
  revert l. induction a as [|a IH]; intros [|x l]; simpl; try done.
  - by rewrite take_nil.
  - by rewrite IH.
Qed.

(** A batch that starts inside the list is the next [batch_size]
    elements, fewer at the end. *)
Lemma lslice_batch {A} (l : list A) (i batch_size : nat) :
  i ≤ length l →
  lslice l (Z.of_nat i) (Z.of_nat (i + batch_size)) = take batch_size (drop i l).
Proof.
  intros Hi. unfold lslice, clip.
  destruct (Z.ltb_spec (Z.of_nat i) 0); [lia|].
  destruct (Z.ltb_spec (Z.of_nat (i + batch_size)) 0); [lia|].
  rewrite (Z.min_l (Z.of_nat i)), Nat2Z.id by lia.
  destruct (decide (i + batch_size ≤ length l)).
  - rewrite Z.min_l by lia. f_equal. lia.
  - rewrite Z.min_r by lia.
    rewrite !take_ge; [done | rewrite length_drop; lia | rewrite length_drop; lia].
Qed.

(** The batches of [range(0, len(l), batch_size)], one after the other,
    are the list. *)
Lemma batches_concat {A} (l : list A) (batch_size m : nat) :
  m * batch_size < length l + batch_size →
  concat ((λ i, lslice l (Z.of_nat i) (Z.of_nat (i + batch_size)))
            <$> ((λ k, k * batch_size) <$> seq 0 m))
  = take (m * batch_size) l.
Proof.
  induction m as [|m IH]; intros Hm; [done|].
  rewrite seq_S, !fmap_app, concat_app, IH by lia. simpl.
  rewrite app_nil_r, lslice_batch by lia.
  by rewrite <- take_add_app, Nat.add_comm.
Qed.

Lemma concat_fmap_inner {A B C} (f : B → C) (g : A → list B) (l : list A) :
  concat ((λ i, f <$> g i) <$> l) = f <$> concat (g <$> l).
Proof.
  induction l as [|i l IH]; [done|].
  rewrite !fmap_cons. cbn [concat]. by rewrite fmap_app, IH.
Qed.

Lemma range_step_covers (n batch_size : nat) :
  0 < batch_size →
  (n + batch_size - 1) `div` batch_size * batch_size < n + batch_size
  ∧ n ≤ (n + batch_size - 1) `div` batch_size * batch_size.
Proof.
  intros Hb.
  pose proof (Nat.div_mod_eq (n + batch_size - 1) batch_size) as Hdm.
  pose proof (Nat.mod_upper_bound (n + batch_size - 1) batch_size) as Hmod.
  nia.
Qed.

Context {vec : Type} (embedding : string → vec) (normalize_L2 : vec → vec).

Lemma fold_extend (f : nat → list vec) (l : list nat) (acc : list vec) :
  fold_left (λ vectors i, vectors ++ f i) l acc = acc ++ concat (f <$> l).
Proof.
  revert acc. induction l as [|i l IH]; intros acc; simpl.
  - by rewrite app_nil_r.
  - by rewrite IH, app_assoc.
Qed.

(** Batching does not show in the result: one normalised embedding per
    text, in the order of the texts. *)
Lemma embed_texts_map (texts : list string) (batch_size : nat) :
  0 < batch_size →
  embed_texts embedding normalize_L2 texts batch_size
  = (λ t, normalize_L2 (embedding t)) <$> texts.
Proof.
  intros Hb. unfold embed_texts. rewrite fold_extend. simpl.
  unfold create, range_step.
  destruct (range_step_covers (length texts) batch_size Hb) as [Hlt Hge].
  rewrite concat_fmap_inner, batches_concat by done.
  rewrite take_ge by done. by rewrite <- list_fmap_compose.
Qed.

End IndexUpdate.

Section IndexUpdateTheorem.
Import Py update_faiss.
Context {vec : Type} (embedding : string → vec) (normalize_L2 : vec → vec).

Lemma new_items_fresh (st : list item) (chunks : list item) :
  filter (λ c, chunk_id c ∉ (list_to_set (chunk_id <$> st) : gset (option string))) chunks
  = filter (fresh st) chunks.
Proof.
  apply list_filter_iff. intros c. unfold fresh.
  rewrite elem_of_list_to_set, list_elem_of_fmap, Forall_forall.
  split.
  - intros Hnot x Hx Heq. apply Hnot. eauto.
  - intros Hall (x & Heq & Hx). by apply (Hall x).
Qed.

(** C7.  An update appends to the store the input chunks whose chunk_id
    no element of the store has, in input order and nothing else; it
    appends to the index the normalised embedding of the text of each
    appended chunk, in the same order and nothing else; so a store and an
    index of equal length stay of equal length. *)
Theorem C7_update_appends_new_chunks (chunks : list item) (st : state) :
  store (main embedding normalize_L2 chunks st)
    = store st ++ filter (fresh (store st)) chunks
  ∧ index (main embedding normalize_L2 chunks st)
    = index st
      ++ ((λ c, normalize_L2 (embedding (text c))) <$> filter (fresh (store st)) chunks)
  ∧ (length (store st) = length (index st) →
     length (store (main embedding normalize_L2 chunks st))
     = length (index (main embedding normalize_L2 chunks st))).
Proof.
  assert (store (main embedding normalize_L2 chunks st)
            = store st ++ filter (fresh (store st)) chunks
          ∧ index (main embedding normalize_L2 chunks st)
            = index st
              ++ ((λ c, normalize_L2 (embedding (text c)))
                    <$> filter (fresh (store st)) chunks)) as [Hs Hi].
  { unfold main. rewrite new_items_fresh.
    destruct (filter (fresh (store st)) chunks) as [|c new] eqn:Hnew.
    - by rewrite !app_nil_r.
    - cbn [store index]. split; [done|]. f_equal.
      rewrite embed_texts_map by lia. by rewrite <- list_fmap_compose. }
  split_and!; [done | done |].
  intros Hlen. by rewrite Hs, Hi, !length_app, length_fmap, Hlen.
Qed.

End IndexUpdateTheorem.

(** A store of one chunk and an update that brings it again together with
    two new ones: the two are appended, each with one vector. *)
Example update_appends_two :
  let c (id : string) : item := Item (Some id) id (Meta None None None None) in
  update_faiss.main (λ t, t) (λ v, v) [c "d::chunk_0"; c "d::chunk_1"; c "e::chunk_0"]
    (update_faiss.State ["d::chunk_0"] [c "d::chunk_0"])
  = update_faiss.State ["d::chunk_0"; "d::chunk_1"; "e::chunk_0"]
      [c "d::chunk_0"; c "d::chunk_1"; c "e::chunk_0"].
Proof. reflexivity. Qed.

(** ** clean_docs.py: dropped documents *)

Section Cleaning.
Import Py clean_docs.
Variable get_text : string → string.

(** C10.  [clean_one] returns [None] exactly when the raw_html field is
    missing or empty, or the text extracted from it and cleaned has
    fewer than 200 characters; and a document that is returned carries
    that text, of at least 200 characters. *)
Theorem C10_clean_one_drops_short (raw : raw_item) :
  (clean_one get_text raw = None
   ↔ no_html raw
     ∨ String.length (html_to_text get_text (or_empty (raw_html raw))) < 200)
  ∧ (∀ doc, clean_one get_text raw = Some doc →
       c_text doc = html_to_text get_text (or_empty (raw_html raw))
       ∧ 200 ≤ String.length (c_text doc)).
Proof.
  unfold clean_one, no_html.
  destruct (raw_html raw) as [[|c html]|] eqn:Hraw; cbn [truthy or_empty].
  - split; [naive_solver | done].
  - destruct (Nat.ltb_spec
                (String.length (html_to_text get_text (String c html))) 200).
    + split; [naive_solver | done].
    + split.
      * split; [done|]. intros [[?|?]|?]; [done | done | lia].
      * intros doc [= <-]. simpl. split; [done | lia].
  - split; [naive_solver | done].
Qed.

End Cleaning.

(** A page whose text is short is dropped, one with 200 characters is kept. *)
Example clean_one_short_and_long :
  let raw (html : string) :=
    clean_docs.Raw (Some html) (Some "id") None None None None None None None None None in
  clean_docs.clean_one (λ html, html) (raw "short page") = None
  ∧ clean_docs.c_text <$> clean_docs.clean_one (λ html, html) (raw (text_of_length 200))
    = Some (text_of_length 200).
Proof. split; vm_compute; reflexivity. Qed.

(* ================================================================== *)
(** * Part IV: further properties                                       *)
(* ================================================================== *)

(** ** ask.py: collecting and filtering the hits *)

Section Collecting.
Import Py ask.

Lemma collect_hits_cons store s idx res :
  collect_hits store ((s, idx) :: res)
  = if (idx <? 0)%Z then collect_hits store res
    else match store !! Z.to_nat idx with
         | Some it => cons (s, it) <$> collect_hits store res
         | None => None
         end.
Proof. done. Qed.

(** X1.  Collecting the hits raises exactly when the search result holds
    a position that is not negative and not inside the store; otherwise
    the hits are, in the order of the result and with its scores, the
    chunks at the positions that are not negative. *)
Theorem X1_collect_hits_bounds (store : list item) (res : list (Q * Z)) :
  (collect_hits store res = None
   ↔ ∃ r, r ∈ res ∧ (0 ≤ r.2)%Z ∧ (Z.of_nat (length store) ≤ r.2)%Z)
  ∧ ∀ hits, collect_hits store res = Some hits →
      Forall2 (λ (h : hit) (r : Q * Z), h.1 = r.1 ∧ store !! Z.to_nat r.2 = Some h.2)
        hits (filter (λ r : Q * Z, (0 ≤ r.2)%Z) res).
Proof.
  split_and!.
  - induction res as [|[s idx] res IH].
    { split; [done | intros (r & Hr & _); set_solver]. }
    rewrite collect_hits_cons. destruct (Z.ltb_spec idx 0) as [Hneg|Hpos].
    + rewrite IH. split.
      * intros (r & Hr & ?). exists r. set_solver.
      * intros (r & [->|Hr]%elem_of_cons & H0 & Hlen); [simpl in *; lia|]. eauto.
    + destruct (store !! Z.to_nat idx) as [it|] eqn:Hlook.
      * apply lookup_lt_Some in Hlook.
        destruct (collect_hits store res) as [hits|]; simpl.
        -- split; [done|]. intros (r & [->|Hr]%elem_of_cons & H0 & Hlen).
           ++ simpl in *. lia.
           ++ assert (Some hits = None) by (apply IH; eauto). done.
        -- split; [|done]. intros _.
           destruct IH as [IH _]. destruct (IH eq_refl) as (r & Hr & ?).
           exists r. set_solver.
      * apply lookup_ge_None in Hlook. split; [|done]. intros _.
        exists (s, idx). simpl. split; [set_solver | lia].
  - induction res as [|[s idx] res IH]; intros hits.
    { intros [= <-]. constructor. }
    rewrite collect_hits_cons, filter_cons. simpl.
    destruct (Z.ltb_spec idx 0) as [Hneg|Hpos].
    + rewrite decide_False by lia. apply IH.
    + rewrite decide_True by lia.
      destruct (store !! Z.to_nat idx) as [it|] eqn:Hlook; [|done].
      destruct (collect_hits store res) as [hits'|]; [|done].
      intros [= <-]. constructor; [done | by apply IH].
Qed.

(** The two filters in either order leave the same hits; each leaves the
    hits it keeps in their order and keeps them when applied again. *)
Lemma filter_ticker_sublist t hits : filter_ticker t hits `sublist_of` hits.
Proof.
  unfold filter_ticker. destruct (truthy t); [apply sublist_filter | done].
Qed.

Lemma filter_doc_type_sublist d hits : filter_doc_type d hits `sublist_of` hits.
Proof.
  unfold filter_doc_type. destruct (truthy d); [apply sublist_filter | done].
Qed.

(** X2.  The ticker filter and the document-type filter commute, the
    hits they leave are a subsequence of the hits (same order, nothing
    new), and filtering what was filtered changes nothing. *)
Theorem X2_filters_commute_sublist_idempotent (a : args) (hits : list hit) :
  filter_doc_type (doc_type_arg a) (filter_ticker (ticker_arg a) hits)
  = filter_ticker (ticker_arg a) (filter_doc_type (doc_type_arg a) hits)
  ∧ filtered a hits `sublist_of` hits
  ∧ filtered a (filtered a hits) = filtered a hits.
Proof.
  assert (∀ l, filter_doc_type (doc_type_arg a) (filter_ticker (ticker_arg a) l)
               = filter_ticker (ticker_arg a) (filter_doc_type (doc_type_arg a) l))
    as Hcomm.
  { intros l. unfold filter_doc_type, filter_ticker.
    destruct (truthy (ticker_arg a)), (truthy (doc_type_arg a)); try done.
    rewrite !list_filter_filter. apply list_filter_iff. tauto. }
  split_and!; [done | |].
  - unfold filtered. etrans; [apply filter_doc_type_sublist | apply filter_ticker_sublist].
  - unfold filtered.
    assert (∀ l, filter_ticker (ticker_arg a) (filter_ticker (ticker_arg a) l)
                 = filter_ticker (ticker_arg a) l) as Ht.
    { intros l. unfold filter_ticker. destruct (truthy (ticker_arg a)); [|done].
      rewrite list_filter_filter. apply list_filter_iff. tauto. }
    assert (∀ l, filter_doc_type (doc_type_arg a) (filter_doc_type (doc_type_arg a) l)
                 = filter_doc_type (doc_type_arg a) l) as Hd.
    { intros l. unfold filter_doc_type. destruct (truthy (doc_type_arg a)); [|done].
      rewrite list_filter_filter. apply list_filter_iff. tauto. }
    by rewrite <- (Hcomm (filter_ticker _ hits)), Ht, Hd.
Qed.

End Collecting.

(** ** ask.py: what the most-recent selection returns *)

Section MostRecentFurther.
Import Py ask.

Lemma best_is_a_dated_group (hits : list hit) d :
  (select_best (group_by_url hits)).2 = Some d →
  latest (dates_of hits) d
  ∧ latest (dates_of (group hits (select_best (group_by_url hits)).1)) d
  ∧ ∃ h, h ∈ hits ∧ hit_url h = (select_best (group_by_url hits)).1.
Proof.
  intros Hd. pose proof (select_best_first_group hits) as H.
  rewrite Hd in H. destruct H as (Hl & before & h & after & -> & Hh & Hg & _).
  rewrite Hh in Hg. split_and!; [done | done |].
  exists h. split; [set_solver | done].
Qed.

Lemma best_none_no_dates (hits : list hit) :
  (select_best (group_by_url hits)).2 = None →
  (select_best (group_by_url hits)).1 = None ∧ dates_of hits = [].
Proof.
  intros Hd. pose proof (select_best_first_group hits) as H. by rewrite Hd in H.
Qed.

Lemma latest_nonempty ds d : latest ds d → ds ≠ [].
Proof. intros [Hin _] ->. set_solver. Qed.

Lemma dates_of_nonempty hs : dates_of hs ≠ [] → hs ≠ [].
Proof. by intros H ->. Qed.

Lemma group_all (hits : list hit) k :
  (∀ h, h ∈ hits → hit_url h = k) → group hits k = hits.
Proof.
  intros Hall. unfold group. induction hits as [|h hits IH]; [done|].
  rewrite filter_cons_True by (apply Hall; set_solver).
  f_equal. apply IH. intros h' Hh'. apply Hall. set_solver.
Qed.

Lemma most_recent_doc_sublist (hits : list hit) :
  most_recent_doc hits `sublist_of` hits.
Proof.
  rewrite most_recent_doc_spec. destruct (truthy _); [|done].
  apply sublist_filter.
Qed.

Lemma most_recent_doc_nonempty (hits : list hit) :
  hits ≠ [] → most_recent_doc hits ≠ [].
Proof.
  intros Hne. rewrite most_recent_doc_spec.
  destruct (truthy _) eqn:Htruthy; [|done].
  destruct (select_best (group_by_url hits)).2 as [d|] eqn:Hd.
  - apply best_is_a_dated_group in Hd as (_ & Hg & _).
    by apply latest_nonempty, dates_of_nonempty in Hg.
  - apply best_none_no_dates in Hd as [Hu _]. by rewrite Hu in Htruthy.
Qed.

(** X3.  When every candidate has a non-empty source URL and some
    candidate has a parseable filing date, the most-recent selection
    returns exactly the candidates of one source URL, at least one, and
    that document holds the latest filing date of all candidates. *)
Theorem X3_most_recent_one_document (hits : list hit) :
  (∀ h, h ∈ hits → truthy (hit_url h) = true) →
  dates_of hits ≠ [] →
  ∃ u d,
    u ≠ EmptyString
    ∧ most_recent_doc hits = group hits (Some u)
    ∧ most_recent_doc hits ≠ []
    ∧ latest (dates_of hits) d
    ∧ latest (dates_of (most_recent_doc hits)) d.
Proof.
  intros Hurls Hdates.
  destruct (select_best (group_by_url hits)).2 as [d|] eqn:Hd.
  - pose proof Hd as (Hl & Hg & h & Hh & Hu)%best_is_a_dated_group.
    pose proof (Hurls h Hh) as Htruthy. rewrite Hu in Htruthy.
    assert (most_recent_doc hits = group hits (select_best (group_by_url hits)).1)
      as Heq by (by rewrite most_recent_doc_spec, Htruthy).
    destruct (select_best (group_by_url hits)).1 as [[|c u]|]; try done.
    exists (String c u), d. rewrite Heq. split_and!; try done.
    by apply latest_nonempty, dates_of_nonempty in Hg.
  - by apply best_none_no_dates in Hd as [_ ?].
Qed.

Lemma X3_most_recent_witness :
  let h (s : Q) (u d : string) : hit :=
    (s, Item None "t" (Meta None None (Some d) (Some u))) in
  let hits := [h (1 # 2)%Q "u1" "2024-01-15"; h (1 # 3)%Q "u2" "2024-03-01";
               h (1 # 4)%Q "u1" "2023-12-31"] in
  most_recent_doc hits = [h (1 # 3)%Q "u2" "2024-03-01"]
  ∧ ∃ u d,
      u ≠ EmptyString
      ∧ most_recent_doc hits = group hits (Some u)
      ∧ most_recent_doc hits ≠ []
      ∧ latest (dates_of hits) d
      ∧ latest (dates_of (most_recent_doc hits)) d.
Proof.
  intros h hits. split; [reflexivity|].
  apply (X3_most_recent_one_document hits).
  - intros x Hx. unfold hits in Hx.
    repeat (apply elem_of_cons in Hx as [->|Hx]; [reflexivity|]).
    by apply elem_of_nil in Hx.
  - vm_compute. discriminate.
Defined.

(** X4.  When no candidate has a parseable filing date the selection
    returns the candidates as they are. *)
Theorem X4_most_recent_without_dates (hits : list hit) :
  dates_of hits = [] → most_recent_doc hits = hits.
Proof. apply most_recent_doc_no_dates. Qed.

Lemma X4_most_recent_without_dates_witness :
  let h (u : string) (d : option string) : hit :=
    ((1 # 2)%Q, Item None "t" (Meta None None d (Some u))) in
  let hits := [h "u1" None; h "u2" (Some "March 1, 2024"); h "u3" (Some "2024-02-30")] in
  dates_of hits = [] ∧ most_recent_doc hits = hits.
Proof.
  intros h hits. split; [reflexivity|].
  apply (X4_most_recent_without_dates hits). reflexivity.
Defined.

(** X5.  The selection returns a subsequence of the candidates, returns
    at least one of them when there is one, and selecting again among
    what it returned changes nothing. *)
Theorem X5_most_recent_sublist_nonempty_idempotent (hits : list hit) :
  most_recent_doc hits `sublist_of` hits
  ∧ (most_recent_doc hits = [] ↔ hits = [])
  ∧ most_recent_doc (most_recent_doc hits) = most_recent_doc hits.
Proof.
  split_and!.
  - apply most_recent_doc_sublist.
  - split; [|by intros ->].
    intros Hnil. destruct hits as [|h hits]; [done|].
    by apply most_recent_doc_nonempty in Hnil.
  - pose proof (most_recent_doc_spec hits) as Hspec.
    destruct (truthy (select_best (group_by_url hits)).1) eqn:Htruthy;
      [|by rewrite Hspec].
    set (k := (select_best (group_by_url hits)).1) in *.
    set (G := most_recent_doc hits) in *.
    assert (∀ h, h ∈ G → hit_url h = k) as HG.
    { intros h. rewrite Hspec, elem_of_group. tauto. }
    assert (dates_of G ≠ []) as Hdates.
    { destruct (select_best (group_by_url hits)).2 as [d|] eqn:Hd.
      - apply best_is_a_dated_group in Hd as (_ & Hg & _). fold k in Hg.
        rewrite <- Hspec in Hg. by apply latest_nonempty in Hg.
      - apply best_none_no_dates in Hd as [Hu _]. fold k in Hu.
        by rewrite Hu in Htruthy. }
    rewrite (most_recent_doc_spec G).
    destruct (select_best (group_by_url G)).2 as [d|] eqn:Hd.
    + apply best_is_a_dated_group in Hd as (_ & _ & h & Hh & Hu).
      rewrite <- Hu, (HG h Hh), Htruthy. by apply group_all.
    + by apply best_none_no_dates in Hd as [_ ?].
Qed.

End MostRecentFurther.

(** ** ask.py: the chunks that reach the prompt *)

Section RankFurther.
Import Py ask.

(** How many hits a slice [[:max_chunks]] of [n] hits keeps. *)
Definition kept_count (n : nat) (max_chunks : Z) : nat :=
  if (max_chunks <? 0)%Z then n - Z.to_nat (- max_chunks)
  else Z.to_nat max_chunks `min` n.

Lemma slice_to_kept_count {A} (l : list A) (m : Z) :
  slice_to l m = take (kept_count (length l) m) l.
Proof.
  unfold kept_count. destruct (Z.ltb_spec m 0) as [Hneg|Hpos].
  - unfold slice_to, clip. destruct (Z.ltb_spec m 0); [|lia]. f_equal. lia.
  - rewrite slice_to_take by done.
    destruct (decide (Z.to_nat m ≤ length l)).
    + f_equal. lia.
    + rewrite !take_ge; [done | lia | lia].
Qed.

(** X6.  Ranking keeps the best: the candidates are the returned hits
    together with the hits left out, and no hit left out has a higher
    score than a returned one.  A negative [max_chunks] does not empty the
    result: it leaves out that many of the lowest-ranked candidates. *)
Theorem X6_rank_keeps_the_best (hits : list hit) (max_chunks : Z) :
  length (rank hits max_chunks) = kept_count (length hits) max_chunks
  ∧ ∃ rest,
      hits ≡ₚ rank hits max_chunks ++ rest
      ∧ ∀ x y, x ∈ rank hits max_chunks → y ∈ rest → (score y <= score x)%Q.
Proof.
  unfold rank. rewrite slice_to_kept_count.
  pose proof (sorted_desc_perm score hits) as Hp.
  pose proof (sorted_desc_sorted score hits) as Hs.
  rewrite (Permutation_length Hp).
  set (c := kept_count (length hits) max_chunks) in *.
  split.
  - rewrite length_take, (Permutation_length Hp). unfold c, kept_count.
    destruct (_ <? _)%Z; lia.
  - exists (drop c (sorted_desc score hits)). split.
    + by rewrite take_drop.
    + intros x y Hx Hy.
      rewrite <- (take_drop c (sorted_desc score hits)) in Hs.
      apply (StronglySorted_app_1_elem_of _ _ _ x y Hs Hx Hy).
Qed.

Lemma context_block_nonempty h : context_block h ≠ EmptyString.
Proof. done. Qed.

Lemma append_nonempty (s t : string) : s ≠ EmptyString → s +:+ t ≠ EmptyString.
Proof. by destruct s. Qed.

Lemma context_empty_iff (hits : list hit) : context hits = EmptyString ↔ hits = [].
Proof.
  split; [|by intros ->].
  destruct hits as [|h hits]; [done|]. unfold context. rewrite fmap_cons.
  intros Hjoin. exfalso. revert Hjoin. cbn [join].
  destruct (context_block <$> hits).
  - apply context_block_nonempty.
  - apply append_nonempty, context_block_nonempty.
Qed.

(** X7.  A run that does not raise either prints the answer header and
    "No matching documents found after filtering." and nothing else, or
    sends exactly the one request it starts with, for the question it was
    asked; and when [max_chunks] is at least 1 the context of the request
    is not empty. *)
Theorem X7_chat_context_nonempty (a : args) (store : list item)
    (res : list (Q * Z)) (chat : string → string → string) (trace : list event) :
  main a store res chat = Some trace →
  (trace = [Print (String "010" ("=== Answer ===" +:+ String "010" EmptyString));
            Print "No matching documents found after filtering."]
   ∨ ∃ c rest, trace = ChatCompletion (question a) c :: rest
               ∧ ¬ sends_chat rest
               ∧ ((1 ≤ max_chunks a)%Z → c ≠ EmptyString)).
Proof.
  unfold main. destruct (collect_hits store res) as [hits|]; [|done].
  destruct (filter_doc_type _ _) as [|h0 hits0] eqn:Hf.
  { intros [= <-]. by left. }
  intros [= <-]. right. eexists _, _. split_and!; [done | |].
  - intros (q & c & Hin). rewrite !elem_of_cons, list_elem_of_fmap in Hin.
    destruct Hin as [?|[?|[?|(s & ? & _)]]]; done.
  - intros Hm. rewrite context_empty_iff.
    set (cands := if most_recent a then most_recent_doc (h0 :: hits0) else h0 :: hits0).
    assert (cands ≠ []) as Hne.
    { unfold cands. destruct (most_recent a); [|done].
      by apply most_recent_doc_nonempty. }
    intros Hnil. apply (f_equal length) in Hnil.
    unfold rank in Hnil.
    rewrite slice_to_take, length_take in Hnil by lia.
    rewrite (Permutation_length (sorted_desc_perm score cands)) in Hnil.
    destruct cands; [done|]. simpl in Hnil. lia.
Qed.

Lemma X7_chat_context_witness :
  let a := Args "What changed?" (Some "aapl") None true 1 in
  let store := [Item (Some "d::chunk_0") "text" (Meta (Some "AAPL") (Some "8-K") None None)] in
  let trace := [ChatCompletion "What changed?" "[AAPL | 8-K | None] text";
                Print (nl +:+ "=== Answer ===" +:+ nl); Print "reply";
                Print (nl +:+ "=== Sources (top hits) ===")] in
  main a store [((9 # 10)%Q, 0%Z)] (λ _ _, "reply") = Some trace
  ∧ (trace = [Print (String "010" ("=== Answer ===" +:+ String "010" EmptyString));
              Print "No matching documents found after filtering."]
     ∨ ∃ c rest, trace = ChatCompletion (question a) c :: rest
                 ∧ ¬ sends_chat rest
                 ∧ ((1 ≤ max_chunks a)%Z → c ≠ EmptyString)).
Proof.
  intros a store trace. split; [reflexivity|].
  apply (X7_chat_context_nonempty a store [((9 # 10)%Q, 0%Z)] (λ _ _, "reply")).
  reflexivity.
Defined.

End RankFurther.

(** ** ask.py: [parse_date] *)

Section ParseDate.
Import Py ask.

(** A day of the calendar: a year from 1 to 9999, a month of the year,
    a day of the month. *)
Definition calendar_day (d : date) : Prop :=
  (1 ≤ Z.of_nat (year d) ≤ 9999)%Z ∧ 1 ≤ month d ≤ 12
  ∧ 1 ≤ day d ≤ days_in_month (year d) (month d).

(** The character of a decimal digit. *)
Definition digit_char (k : nat) : ascii := ascii_of_nat (48 + k).

(** A date written as YYYY-MM-DD with leading zeros, the form of the
    filing dates of the SEC and of [strftime("%Y-%m-%d")]. *)
Definition iso_format (d : date) : string :=
  String (digit_char (year d / 1000))
    (String (digit_char (year d / 100 mod 10))
       (String (digit_char (year d / 10 mod 10))
          (String (digit_char (year d mod 10))
             (String "-"
                (String (digit_char (month d / 10))
                   (String (digit_char (month d mod 10))
                      (String "-"
                         (String (digit_char (day d / 10))
                            (String (digit_char (day d mod 10)) EmptyString))))))))).

End ParseDate.

Section ParseDateRoundTrip.
Import Py ask.

Lemma code_digit_char k : k < 10 → code (digit_char k) = 48 + k.
Proof. intros Hk. unfold code, digit_char. apply nat_ascii_embedding. lia. Qed.

Lemma is_digit_digit_char k : k < 10 → is_digit (digit_char k) = true.
Proof.
  intros Hk. unfold is_digit. rewrite code_digit_char by done.
  apply andb_true_iff. rewrite !Nat.leb_le. lia.
Qed.

Lemma digit_digit_char k : k < 10 → digit (digit_char k) = k.
Proof. intros Hk. unfold digit. rewrite code_digit_char by done. lia. Qed.

Lemma split_dash_digit k s :
  k < 10 →
  split_dash (String (digit_char k) s)
  = match split_dash s with
    | Some (l, r) => Some (String (digit_char k) l, r)
    | None => None
    end.
Proof.
  intros Hk. cbn [split_dash]. rewrite code_digit_char by done.
  destruct (Nat.eqb_spec (48 + k) 45); [lia | done].
Qed.

Lemma split_dash_dash s : split_dash (String "-" s) = Some (EmptyString, s).
Proof. done. Qed.

Lemma year_token_iso y :
  (Z.of_nat y ≤ 9999)%Z →
  year_token
    (String (digit_char (y / 1000))
       (String (digit_char (y / 100 mod 10))
          (String (digit_char (y / 10 mod 10))
             (String (digit_char (y mod 10)) EmptyString))))
  = Some y.
Proof.
  intros Hy.
  assert (y / 1000 < 10) by (apply Nat.Div0.div_lt_upper_bound; lia).
  pose proof (Nat.mod_upper_bound (y / 100) 10).
  pose proof (Nat.mod_upper_bound (y / 10) 10).
  pose proof (Nat.mod_upper_bound y 10).
  cbn [year_token]. rewrite !is_digit_digit_char, !digit_digit_char by lia.
  simpl andb. cbv iota. f_equal.
  pose proof (Nat.div_mod_eq y 10). pose proof (Nat.div_mod_eq (y / 10) 10).
  pose proof (Nat.div_mod_eq (y / 100) 10).
  assert (y / 10 / 10 = y / 100) by (by rewrite Nat.Div0.div_div).
  assert (y / 100 / 10 = y / 1000) by (by rewrite Nat.Div0.div_div).
  lia.
Qed.

Lemma month_token_iso m :
  1 ≤ m ≤ 12 →
  month_token (String (digit_char (m / 10))
                 (String (digit_char (m mod 10)) EmptyString)) = Some m.
Proof.
  intros Hm. do 13 (destruct m as [|m]; [by (lia || reflexivity)|]). lia.
Qed.

Lemma day_token_iso d :
  1 ≤ d ≤ 31 →
  day_token (String (digit_char (d / 10))
               (String (digit_char (d mod 10)) EmptyString)) = Some d.
Proof.
  intros Hd. do 32 (destruct d as [|d]; [by (lia || reflexivity)|]). lia.
Qed.

Lemma days_in_month_le_31 y m : days_in_month y m ≤ 31.
Proof.
  unfold days_in_month.
  do 12 (destruct m as [|m]; [try destruct (is_leap y); lia|]). lia.
Qed.

(** X9.  Every day of the calendar written as YYYY-MM-DD with leading
    zeros is parsed, and parsed to that day. *)
Theorem X9_parse_date_reads_iso_dates (d : date) :
  calendar_day d → parse_date (Some (iso_format d)) = Some d.
Proof.
  intros (Hy & Hm & Hd). destruct d as [y m dd]. simpl in *.
  pose proof (days_in_month_le_31 y m).
  assert (y / 1000 < 10) by (apply Nat.Div0.div_lt_upper_bound; lia).
  pose proof (Nat.mod_upper_bound (y / 100) 10).
  pose proof (Nat.mod_upper_bound (y / 10) 10).
  pose proof (Nat.mod_upper_bound y 10).
  assert (m / 10 < 10) by (apply Nat.Div0.div_lt_upper_bound; lia).
  pose proof (Nat.mod_upper_bound m 10).
  assert (dd / 10 < 10) by (apply Nat.Div0.div_lt_upper_bound; lia).
  pose proof (Nat.mod_upper_bound dd 10).
  unfold parse_date, iso_format. cbn [truthy or_empty year month day].
  unfold strptime_ymd.
  rewrite !split_dash_digit, split_dash_dash by lia. cbv beta iota.
  rewrite !split_dash_digit, split_dash_dash by lia. cbv beta iota.
  rewrite year_token_iso, month_token_iso, day_token_iso by lia.
  destruct (Nat.leb_spec 1 y); [|lia].
  destruct (Nat.leb_spec dd (days_in_month y m)); [done | lia].
Qed.

Lemma X9_parse_date_iso_witness :
  calendar_day (Date 2024 2 29)
  ∧ iso_format (Date 2024 2 29) = "2024-02-29"
  ∧ parse_date (Some (iso_format (Date 2024 2 29))) = Some (Date 2024 2 29).
Proof.
  assert (calendar_day (Date 2024 2 29)) as H.
  { unfold calendar_day. simpl. change (is_leap 2024) with true. lia. }
  split; [done|]. split; [reflexivity|].
  by apply (X9_parse_date_reads_iso_dates (Date 2024 2 29)).
Defined.

End ParseDateRoundTrip.

(** ** Strings: trimming and slicing *)

Section StringsFurther.
Import Py.

Lemma str_app_cons c (s t : string) : String c s +:+ t = String c (s +:+ t).
Proof. done. Qed.

Lemma str_app_assoc (s t u : string) : (s +:+ t) +:+ u = s +:+ (t +:+ u).
Proof. induction s as [|c s IH]; [done|]. by rewrite !str_app_cons, IH. Qed.

Lemma str_app_nil_r (s : string) : s +:+ EmptyString = s.
Proof. induction s as [|c s IH]; [done|]. by rewrite str_app_cons, IH. Qed.

Lemma str_app_length (s t : string) :
  String.length (s +:+ t) = String.length s + String.length t.
Proof. induction s as [|c s IH]; [done|]. rewrite str_app_cons. simpl. by rewrite IH. Qed.

Definition occurs_in (c t : string) : Prop :=
  ∃ pre post, t = pre +:+ (c +:+ post).

Lemma occurs_in_refl s : occurs_in s s.
Proof. exists EmptyString, EmptyString. by rewrite str_app_nil_r. Qed.

Lemma occurs_in_trans s t u : occurs_in s t → occurs_in t u → occurs_in s u.
Proof.
  intros (p1 & q1 & ->) (p2 & q2 & ->).
  exists (p2 +:+ p1), (q1 +:+ q2). by rewrite !str_app_assoc.
Qed.

Lemma lstrip_suffix s : ∃ pre, s = pre +:+ lstrip s.
Proof.
  induction s as [|c s [pre IH]]; [by exists EmptyString|]. simpl.
  destruct (isspace c); [|by exists EmptyString].
  exists (String c pre). rewrite str_app_cons. by f_equal.
Qed.

Lemma rstrip_prefix s : ∃ post, s = rstrip s +:+ post.
Proof.
  induction s as [|c s [post IH]]; [by exists EmptyString|]. simpl.
  destruct (rstrip s) as [|c' r] eqn:Hr.
  - destruct (isspace c); [by exists (String c s) | by exists s].
  - exists post. rewrite str_app_cons. by f_equal.
Qed.

Lemma strip_occurs s : occurs_in (strip s) s.
Proof.
  unfold strip. destruct (lstrip_suffix s) as [pre Hpre].
  destruct (rstrip_prefix (lstrip s)) as [post Hpost].
  exists pre, post. by rewrite <- Hpost.
Qed.

Lemma substring_0_prefix b s : ∃ post, s = substring 0 b s +:+ post.
Proof.
  revert b. induction s as [|c s IH]; intros [|b]; simpl.
  - by exists EmptyString.
  - by exists EmptyString.
  - by exists (String c s).
  - destruct (IH b) as [post Heq]. exists post. rewrite str_app_cons. by f_equal.
Qed.

Lemma substring_occurs a b s : occurs_in (substring a b s) s.
Proof.
  revert a. induction s as [|c s IH]; intros a.
  - destruct a, b; apply occurs_in_refl.
  - destruct a as [|a].
    + destruct (substring_0_prefix b (String c s)) as [post Heq].
      by exists EmptyString, post.
    + simpl. destruct (IH a) as (pre & post & Heq).
      exists (String c pre), post. rewrite str_app_cons. by f_equal.
Qed.

Lemma length_substring a b s : String.length (substring a b s) ≤ b.
Proof.
  revert a b. induction s as [|c s IH]; intros [|a] [|b]; simpl; try lia.
  - specialize (IH 0 b). lia.
  - apply (IH a 0).
  - apply (IH a (S b)).
Qed.

Lemma substring_all s : substring 0 (String.length s) s = s.
Proof. induction s as [|c s IH]; simpl; [done | by rewrite IH]. Qed.

Lemma length_lstrip s : String.length (lstrip s) ≤ String.length s.
Proof.
  induction s as [|c s IH]; simpl; [done|]. destruct (isspace c); simpl; lia.
Qed.

Lemma length_rstrip s : String.length (rstrip s) ≤ String.length s.
Proof.
  induction s as [|c s IH]; simpl; [done|].
  destruct (rstrip s); [destruct (isspace c)|]; simpl in *; lia.
Qed.

Lemma length_strip s : String.length (strip s) ≤ String.length s.
Proof.
  unfold strip. pose proof (length_rstrip (lstrip s)). pose proof (length_lstrip s). lia.
Qed.

Lemma rstrip_rstrip s : rstrip (rstrip s) = rstrip s.
Proof.
  induction s as [|c s IH]; simpl; [done|].
  destruct (rstrip s) as [|c' r] eqn:Hr.
  - destruct (isspace c) eqn:Hc; simpl; [done|]. by rewrite Hc.
  - simpl in *. rewrite IH. done.
Qed.

(** A string that does not start with whitespace. *)
Definition no_leading_space (s : string) : Prop :=
  match s with
  | EmptyString => True
  | String c _ => isspace c = false
  end.

Lemma lstrip_no_leading s : no_leading_space (lstrip s).
Proof.
  induction s as [|c s IH]; simpl; [done|].
  destruct (isspace c) eqn:Hc; [done|]. by simpl.
Qed.

Lemma lstrip_id s : no_leading_space s → lstrip s = s.
Proof. destruct s as [|c s]; simpl; [done|]. by intros ->. Qed.

Lemma rstrip_no_leading s : no_leading_space s → no_leading_space (rstrip s).
Proof.
  destruct s as [|c s]; simpl; [done|]. intros Hc.
  destruct (rstrip s); [by rewrite Hc|]; done.
Qed.

Lemma strip_strip s : strip (strip s) = strip s.
Proof.
  unfold strip. rewrite (lstrip_id (rstrip (lstrip s))).
  - apply rstrip_rstrip.
  - apply rstrip_no_leading, lstrip_no_leading.
Qed.

End StringsFurther.

(** ** chunk_docs.py: what the chunks are *)

Section ChunkingFurther.
Import Py chunk_docs.
Open Scope Z_scope.

(** What holds of every chunk: it is not empty, it has no whitespace at
    either end, it occurs in the text, and it is no longer than a
    window. *)
Definition good_chunk (text : string) (chunk_size : Z) (c : string) : Prop :=
  c ≠ EmptyString ∧ strip c = c ∧ occurs_in c text
  ∧ (0 ≤ chunk_size → Z.of_nat (String.length c) ≤ chunk_size).

Lemma slice_occurs text lo hi : occurs_in (slice text lo hi) text.
Proof. apply substring_occurs. Qed.

Lemma length_slice text lo hi :
  0 ≤ lo ≤ hi → hi ≤ Z.of_nat (String.length text) →
  Z.of_nat (String.length (slice text lo hi)) ≤ hi - lo.
Proof.
  intros Hlo Hhi. unfold slice, clip.
  destruct (Z.ltb_spec lo 0), (Z.ltb_spec hi 0); try lia.
  rewrite !Z.min_l by lia.
  pose proof (length_substring (Z.to_nat lo) (Z.to_nat (hi - lo)) text). lia.
Qed.

Lemma chunk_loop_good fuel text chunk_size overlap start chunks r :
  chunk_loop fuel text chunk_size overlap start chunks = Some r →
  0 ≤ start →
  Forall (good_chunk text chunk_size) chunks →
  Forall (good_chunk text chunk_size) r.
Proof.
  revert start chunks.
  induction fuel as [|fuel IH]; intros start chunks; [done|].
  cbn [chunk_loop].
  set (n := Z.of_nat (String.length text)).
  set (e := Z.min (start + chunk_size) n).
  destruct (Z.ltb_spec start n) as [Hlt|]; [|by intros [= <-]].
  intros Hrun Hstart Hchunks.
  assert (Forall (good_chunk text chunk_size)
            (if decide (strip (slice text start e) = EmptyString) then chunks
             else chunks ++ [strip (slice text start e)])) as Hnew.
  { case_decide as Hempty; [done|].
    apply Forall_app. split; [done|]. apply Forall_singleton.
    split_and!; [done | apply strip_strip | |].
    - eapply occurs_in_trans; [apply strip_occurs | apply slice_occurs].
    - intros Hcs. pose proof (length_strip (slice text start e)).
      pose proof (length_slice text start e). unfold e, n in *. lia. }
  destruct (Z.eqb_spec e n); [by injection Hrun as <-|].
  eapply IH; [exact Hrun | lia | done].
Qed.

(** X10.  Every chunk that [chunk_text] returns is not empty, starts and
    ends with a character that is not whitespace, occurs in the text as
    it stands, and, for a window that is not negative, is at most one
    window long. *)
Theorem X10_chunks_trimmed_bounded (text : string) (chunk_size overlap : Z)
    (r : list string) :
  returns text chunk_size overlap r →
  ∀ c, c ∈ r →
    c ≠ EmptyString ∧ strip c = c ∧ occurs_in c text
    ∧ (0 ≤ chunk_size → Z.of_nat (String.length c) ≤ chunk_size).
Proof.
  intros [fuel Hrun] c Hc. unfold chunk_text in Hrun.
  apply chunk_loop_good in Hrun; [|lia|constructor].
  rewrite Forall_forall in Hrun. by apply Hrun.
Qed.

Lemma X10_chunks_witness :
  returns "  alpha beta  gamma " 7 2 ["alpha"; "ha beta"; "ta  gam"; "amma"]
  ∧ ∀ c, c ∈ ["alpha"; "ha beta"; "ta  gam"; "amma"] →
      c ≠ EmptyString ∧ strip c = c ∧ occurs_in c "  alpha beta  gamma "
      ∧ (0 ≤ 7 → Z.of_nat (String.length c) ≤ 7).
Proof.
  assert (returns "  alpha beta  gamma " 7 2 ["alpha"; "ha beta"; "ta  gam"; "amma"]) as H.
  { exists 10%nat. reflexivity. }
  split; [done|].
  by apply (X10_chunks_trimmed_bounded "  alpha beta  gamma " 7 2).
Defined.

(** The windows of the loop reach every position of the text. *)
Lemma windows_reach (step chunk_size n p : Z) (K : nat) :
  0 < step ≤ chunk_size → (0 < K)%nat →
  n ≤ (Z.of_nat K - 1) * step + chunk_size →
  0 ≤ p < n →
  ∃ k : nat, (k < K)%nat ∧ Z.of_nat k * step ≤ p < Z.of_nat k * step + chunk_size.
Proof.
  intros Hstep HK Hlast Hp.
  pose proof (Z.div_mod p step ltac:(lia)) as Hdm.
  pose proof (Z.mod_pos_bound p step ltac:(lia)) as Hmod.
  assert (0 ≤ p / step) by (apply Z.div_pos; lia).
  destruct (Z.le_gt_cases (p / step) (Z.of_nat K - 1)) as [Hle|Hgt].
  - exists (Z.to_nat (p / step)). split; [lia|]. rewrite Z2Nat.id by done. nia.
  - exists (K - 1)%nat. split; [lia|].
    replace (Z.of_nat (K - 1)) with (Z.of_nat K - 1) by lia. nia.
Qed.

(** X11.  For [0 <= overlap < chunk_size] the windows that [chunk_text]
    cuts leave no gap: every position of the text lies in one of them. *)
Theorem X11_windows_cover_text (text : string) (chunk_size overlap : Z) :
  0 ≤ overlap < chunk_size →
  ∃ K : nat,
    returns text chunk_size overlap
      (kept (window text chunk_size overlap <$> seq 0 K))
    ∧ ∀ p, 0 ≤ p < Z.of_nat (String.length text) →
        ∃ k : nat, (k < K)%nat
          ∧ Z.of_nat k * (chunk_size - overlap) ≤ p
          ∧ p < Z.min (Z.of_nat k * (chunk_size - overlap) + chunk_size)
                  (Z.of_nat (String.length text)).
Proof.
  intros Hov. destruct (decide (String.length text = 0%nat)) as [Hz|Hnz].
  { exists 0%nat. split; [|lia]. exists 1%nat. unfold chunk_text. simpl.
    rewrite Hz. done. }
  destruct (chunk_loop_windows (S (String.length text)) text chunk_size
              overlap 0 []) as (K & HK & Hrun & Hlast & _); [lia ..|].
  exists K. split; [by exists (S (String.length text))|].
  intros p Hp.
  destruct (windows_reach (chunk_size - overlap) chunk_size
              (Z.of_nat (String.length text)) p K) as (k & Hk & Hcov);
    [lia | done | lia | done |].
  exists k. split; [done|]. lia.
Qed.

Lemma X11_windows_cover_witness :
  0 ≤ 1 < 4
  ∧ ∃ K : nat,
      returns "abcdefghij" 4 1 (kept (window "abcdefghij" 4 1 <$> seq 0 K))
      ∧ ∀ p, 0 ≤ p < Z.of_nat (String.length "abcdefghij") →
          ∃ k : nat, (k < K)%nat
            ∧ Z.of_nat k * (4 - 1) ≤ p
            ∧ p < Z.min (Z.of_nat k * (4 - 1) + 4)
                    (Z.of_nat (String.length "abcdefghij")).
Proof.
  split; [lia|]. apply (X11_windows_cover_text "abcdefghij" 4 1). lia.
Defined.

(** X12.  A text that fits into one window is one chunk, the trimmed
    text, or no chunk when nothing is left of it; this takes one round
    whatever the overlap is, also an overlap for which longer texts never
    finish. *)
Theorem X12_short_text_one_chunk (text : string) (chunk_size overlap : Z) :
  Z.of_nat (String.length text) ≤ chunk_size →
  chunk_text 1 text chunk_size overlap
  = Some (if decide (strip text = EmptyString) then [] else [strip text]).
Proof.
  intros Hfit. unfold chunk_text. cbn [chunk_loop].
  destruct (Z.ltb_spec 0 (Z.of_nat (String.length text))) as [Hpos|Hz].
  - rewrite Z.add_0_l, Z.min_r by lia. rewrite Z.eqb_refl.
    assert (slice text 0 (Z.of_nat (String.length text)) = text) as ->; [|done].
    unfold slice, clip. simpl (0 <? 0). cbv iota.
    destruct (Z.ltb_spec (Z.of_nat (String.length text)) 0); [lia|].
    rewrite Z.min_l, Z.min_id, Z.sub_0_r, Nat2Z.id by lia.
    apply substring_all.
  - destruct text; [done | simpl in Hz; lia].
Qed.

Lemma X12_short_text_witness :
  Z.of_nat (String.length " short text ") ≤ 12
  ∧ chunk_text 1 " short text " 12 50 = Some ["short text"].
Proof.
  split; [simpl; lia|].
  apply (X12_short_text_one_chunk " short text " 12 50). simpl. lia.
Defined.

End ChunkingFurther.

(** ** update_faiss.py and build_faiss.py: updates and builds *)

Section UpdateFurther.
Import Py update_faiss.
Context {vec : Type} (embedding : string → vec) (normalize_L2 : vec → vec).

(** X13.  The batches do not show in the result of [embed_texts]: for
    every batch size above 0 it is one normalised embedding per text, in
    the order of the texts. *)
Theorem X13_embed_texts_batches_invisible (texts : list string) (batch_size : nat) :
  0 < batch_size →
  embed_texts embedding normalize_L2 texts batch_size
  = (λ t, normalize_L2 (embedding t)) <$> texts.
Proof. apply embed_texts_map. Qed.

(** What an update leaves, in one equation. *)
Lemma update_main_eq (chunks : list item) (st : state) :
  main embedding normalize_L2 chunks st
  = State
      (index st ++ ((λ c, normalize_L2 (embedding (text c)))
                      <$> filter (fresh (store st)) chunks))
      (store st ++ filter (fresh (store st)) chunks).
Proof.
  unfold main. rewrite new_items_fresh.
  destruct (filter (fresh (store st)) chunks) as [|c new] eqn:Hnew.
  - rewrite !app_nil_r. by destruct st.
  - f_equal. rewrite embed_texts_map by lia. by rewrite <- list_fmap_compose.
Qed.

Lemma fresh_app (s1 s2 : list item) c : fresh (s1 ++ s2) c ↔ fresh s1 c ∧ fresh s2 c.
Proof. unfold fresh. apply Forall_app. Qed.

Lemma not_fresh_self (l : list item) c : c ∈ l → ¬ fresh l c.
Proof.
  intros Hin Hf. unfold fresh in Hf. rewrite Forall_forall in Hf.
  by apply (Hf c).
Qed.

Lemma filter_none {A} (P : A → Prop) `{∀ x, Decision (P x)} (l : list A) :
  (∀ x, x ∈ l → ¬ P x) → filter P l = [].
Proof.
  induction l as [|x l IH]; intros Hall; [apply filter_nil|].
  rewrite filter_cons. destruct (decide (P x)) as [HP|HP].
  - exfalso. apply (Hall x); [by left | done].
  - apply IH. intros y Hy. apply Hall. by right.
Qed.

Lemma filter_all {A} (P : A → Prop) `{∀ x, Decision (P x)} (l : list A) :
  (∀ x, x ∈ l → P x) → filter P l = l.
Proof.
  induction l as [|x l IH]; intros Hall; [apply filter_nil|].
  rewrite filter_cons. destruct (decide (P x)) as [HP|HP].
  - f_equal. apply IH. intros y Hy. apply Hall. by right.
  - exfalso. apply HP, Hall. by left.
Qed.

(** X14.  Running the same update again adds nothing: after an update
    every input chunk has its chunk_id in the store. *)
Theorem X14_update_idempotent (chunks : list item) (st : state) :
  main embedding normalize_L2 chunks (main embedding normalize_L2 chunks st)
  = main embedding normalize_L2 chunks st.
Proof.
  rewrite (update_main_eq chunks (main _ _ _ _)).
  rewrite (update_main_eq chunks st). cbn [store index].
  set (new := filter (fresh (store st)) chunks).
  rewrite (filter_none (fresh (store st ++ new))); [by rewrite fmap_nil, !app_nil_r|].
  intros c Hc. destruct (decide (fresh (store st) c)) as [Hf|Hf].
  - apply not_fresh_self. apply elem_of_app. right.
    by apply list_elem_of_filter.
  - rewrite fresh_app. tauto.
Qed.

(** X15.  An update keeps the chunk_ids of the store distinct when the
    chunk_ids of the input are distinct. *)
Theorem X15_update_keeps_ids_distinct (chunks : list item) (st : state) :
  NoDup (chunk_id <$> store st) →
  NoDup (chunk_id <$> chunks) →
  NoDup (chunk_id <$> store (main embedding normalize_L2 chunks st)).
Proof.
  intros Hst Hch. rewrite update_main_eq. cbn [store]. rewrite fmap_app.
  apply NoDup_app. split_and!; [done | |].
  - intros i Hi (c & -> & [Hfresh _]%list_elem_of_filter)%list_elem_of_fmap.
    apply list_elem_of_fmap in Hi as (x & Heq & Hx).
    unfold fresh in Hfresh. rewrite Forall_forall in Hfresh.
    by apply (Hfresh x Hx).
  - eapply sublist_NoDup; [exact Hch|].
    apply fmap_sublist, sublist_filter.
Qed.

End UpdateFurther.

Lemma X13_embed_texts_witness :
  0 < 2
  ∧ update_faiss.embed_texts (λ t, t +:+ "!") (λ v, "<" +:+ v)
      ["a"; "b"; "c"; "d"; "e"] 2
    = ["<a!"; "<b!"; "<c!"; "<d!"; "<e!"].
Proof.
  split; [lia|].
  rewrite (X13_embed_texts_batches_invisible (λ t, t +:+ "!") (λ v, "<" +:+ v)
             ["a"; "b"; "c"; "d"; "e"] 2); [reflexivity | lia].
Defined.

Lemma X15_update_ids_witness :
  let c (id : string) : item := Item (Some id) id (Meta None None None None) in
  let st := update_faiss.State ["d::chunk_0"] [c "d::chunk_0"] in
  let chunks := [c "d::chunk_0"; c "d::chunk_1"] in
  NoDup (chunk_id <$> update_faiss.store st)
  ∧ NoDup (chunk_id <$> chunks)
  ∧ NoDup (chunk_id <$> update_faiss.store (update_faiss.main (λ t, t) (λ v, v) chunks st)).
Proof.
  intros c st chunks.
  assert (NoDup (chunk_id <$> update_faiss.store st)) as H1.
  { apply NoDup_singleton. }
  assert (NoDup (chunk_id <$> chunks)) as H2.
  { apply NoDup_cons. split; [|apply NoDup_singleton].
    intros Hin%list_elem_of_singleton. discriminate Hin. }
  split_and!; [done | done |].
  by apply (X15_update_keeps_ids_distinct (λ t, t) (λ v, v) chunks st).
Defined.

(** Without that, an update takes over the repetition: the same new
    chunk_id twice in the input is appended twice. *)
Example update_appends_repeated_id :
  let c (id : string) : item := Item (Some id) id (Meta None None None None) in
  update_faiss.store
    (update_faiss.main (λ t, t) (λ v, v) [c "d::chunk_1"; c "d::chunk_1"]
       (update_faiss.State ["d::chunk_0"] [c "d::chunk_0"]))
  = [c "d::chunk_0"; c "d::chunk_1"; c "d::chunk_1"].
Proof. reflexivity. Qed.

Section BuildFurther.
Import Py.
Context {vec : Type} (embedding : string → vec) (normalize_L2 : vec → vec).

Lemma build_embed_texts_map (texts : list string) (batch_size : nat) :
  0 < batch_size →
  build_faiss.embed_texts embedding texts batch_size = embedding <$> texts.
Proof.
  intros Hb. unfold build_faiss.embed_texts. rewrite (fold_extend (vec := vec)).
  simpl. unfold update_faiss.create, range_step.
  destruct (range_step_covers (length texts) batch_size Hb) as [Hlt Hge].
  rewrite concat_fmap_inner, batches_concat by done.
  by rewrite take_ge by done.
Qed.

(** X16.  A build of no chunks raises; a build of some chunks gives the
    index and the store that an update of the empty index with these
    chunks gives, and in it there is one vector for each element of the
    store. *)
Theorem X16_build_is_update_of_empty (chunks : list item) :
  match build_faiss.main embedding normalize_L2 chunks with
  | None => chunks = []
  | Some st =>
      chunks ≠ []
      ∧ st = update_faiss.main embedding normalize_L2 chunks (update_faiss.State [] [])
      ∧ length (update_faiss.index st) = length (update_faiss.store st)
  end.
Proof.
  unfold build_faiss.main. rewrite build_embed_texts_map by lia.
  destruct chunks as [|c chunks]; [done|].
  rewrite !fmap_cons. split_and!; [done | |].
  - rewrite update_main_eq. cbn [update_faiss.store update_faiss.index app].
    assert (filter (fresh []) (c :: chunks) = c :: chunks) as ->.
    { apply filter_all. intros x _. by apply Forall_nil. }
    f_equal. rewrite fmap_cons. f_equal.
    by rewrite <- !list_fmap_compose.
  - cbn [update_faiss.index update_faiss.store length]. f_equal.
    by rewrite !length_fmap.
Qed.

End BuildFurther.

(** ** clean_docs.py: the shape of the cleaned text *)

Section CleanedText.
Import Py clean_docs.

(** [s] has no [k] characters of the class [p] in a row, when [cur]
    characters of the class stand right before it. *)
Fixpoint run_free (p : ascii → bool) (k cur : nat) (s : string) : Prop :=
  match s with
  | EmptyString => True
  | String c s' =>
      if p c then S cur < k ∧ run_free p k (S cur) s' else run_free p k 0 s'
  end.

(** Every character of [s] is of the class [p]. *)
Fixpoint all_of (p : ascii → bool) (s : string) : Prop :=
  match s with
  | EmptyString => True
  | String c s' => p c = true ∧ all_of p s'
  end.

Lemma all_of_app p s t : all_of p (s +:+ t) ↔ all_of p s ∧ all_of p t.
Proof.
  induction s as [|c s IH]; [simpl; tauto|].
  rewrite str_app_cons. simpl. rewrite IH. tauto.
Qed.

Lemma run_free_weaken p k cur cur' s :
  cur' ≤ cur → run_free p k cur s → run_free p k cur' s.
Proof.
  revert cur cur'. induction s as [|c s IH]; intros cur cur' Hle; [done|].
  simpl. destruct (p c); [|done].
  intros [Hlt Hs]. split; [lia|]. apply (IH (S cur)); [lia | done].
Qed.

Lemma run_free_tail p k cur c s :
  run_free p k cur (String c s) → run_free p k 0 s.
Proof.
  simpl. destruct (p c); [|done]. intros [_ Hs].
  apply (run_free_weaken p k (S cur)); [lia | done].
Qed.

Lemma run_free_app_l p k cur s t :
  run_free p k cur (s +:+ t) → run_free p k cur s.
Proof.
  revert cur. induction s as [|c s IH]; intros cur; [done|].
  rewrite str_app_cons. simpl. destruct (p c); [|apply IH].
  intros [Hlt Hs]. split; [done | by apply IH].
Qed.

Lemma run_free_app_r p k cur s t :
  run_free p k cur (s +:+ t) → run_free p k 0 t.
Proof.
  revert cur. induction s as [|c s IH]; intros cur.
  - apply run_free_weaken. lia.
  - rewrite str_app_cons. intros H%run_free_tail. by apply (IH 0).
Qed.

(** A string that is empty or starts outside the class [p]. *)
Definition starts_outside (p : ascii → bool) (s : string) : Prop :=
  match s with
  | EmptyString => True
  | String c _ => p c = false
  end.

(** A block of the class, short enough, in front of a text that starts
    outside the class. *)
Lemma run_free_block p k cur block t :
  all_of p block → cur + String.length block < k →
  starts_outside p t → run_free p k 0 t →
  run_free p k cur (block +:+ t).
Proof.
  revert cur. induction block as [|c block IH]; intros cur Hall Hlen Hstart Ht.
  - destruct t as [|c t]; [done|]. simpl in *. by rewrite Hstart in *.
  - rewrite str_app_cons. simpl in *. destruct Hall as [-> Hall].
    split; [lia|]. apply IH; [done | lia | done | done].
Qed.

(** In front of a text that starts outside the class, a string outside
    the class that is not empty. *)
Lemma run_free_outside p k cur block t :
  all_of (λ c, negb (p c)) block → block ≠ EmptyString →
  run_free p k 0 t → run_free p k cur (block +:+ t).
Proof.
  intros Hall Hne Ht. destruct block as [|c block]; [done|].
  rewrite str_app_cons. simpl in *. destruct Hall as [Hc Hall].
  apply negb_true_iff in Hc. rewrite Hc. clear Hc Hne c.
  induction block as [|c block IH]; [done|].
  rewrite str_app_cons. simpl in *. destruct Hall as [Hc Hall].
  apply negb_true_iff in Hc. rewrite Hc. by apply IH.
Qed.

Lemma flush_cases least repl run :
  (least ≤ String.length run ∧ flush least repl run = repl)
  ∨ (String.length run < least ∧ flush least repl run = run).
Proof.
  unfold flush. destruct (Nat.leb_spec least (String.length run)); [left | right]; done.
Qed.

Lemma all_of_snoc p run c : all_of p run → p c = true → all_of p (run +:+ String c EmptyString).
Proof. intros. apply all_of_app. by simpl. Qed.

(** The substitution leaves no run of [least] characters of its class,
    when what it puts in is of the class and shorter. *)
Lemma sub_runs_run_free p least repl run s :
  all_of p repl → String.length repl < least → all_of p run →
  run_free p least 0 (sub_runs p least repl run s).
Proof.
  intros Hrepl Hlen. revert run.
  induction s as [|c s IH]; intros run Hrun; simpl.
  - rewrite <- (str_app_nil_r (flush least repl run)).
    destruct (flush_cases least repl run) as [[_ ->]|[? ->]];
      by apply run_free_block; rewrite ?Nat.add_0_l.
  - destruct (p c) eqn:Hc.
    + apply IH. by apply all_of_snoc.
    + apply run_free_block.
      * by destruct (flush_cases least repl run) as [[_ ->]|[? ->]].
      * destruct (flush_cases least repl run) as [[_ ->]|[? ->]]; simpl; lia.
      * done.
      * simpl. rewrite Hc. by apply IH.
Qed.

Lemma flush_empty least repl : 0 < least → flush least repl EmptyString = EmptyString.
Proof. unfold flush. simpl. destruct (Nat.leb_spec least 0); [lia | done]. Qed.

(** A substitution for another class, which puts in something that is
    not empty and outside the class [p], leaves the runs of [p] alone. *)
Lemma sub_runs_keeps_run_free p k q least repl :
  (∀ c, q c = true → p c = false) → 0 < least →
  all_of (λ c, negb (p c)) repl → repl ≠ EmptyString →
  ∀ s run cur,
    all_of q run →
    (if decide (run = EmptyString) then run_free p k cur s else run_free p k 0 s) →
    run_free p k cur (sub_runs q least repl run s).
Proof.
  intros Hdisj Hleast Hrepl Hne.
  assert (∀ run, all_of q run → all_of (λ c, negb (p c)) run) as Hq.
  { induction run as [|c run IH]; [done|]. simpl. intros [Hc Hrun].
    split; [|by apply IH]. apply negb_true_iff. by apply Hdisj. }
  assert (∀ run, all_of q run → run ≠ EmptyString →
            all_of (λ c, negb (p c)) (flush least repl run)
            ∧ flush least repl run ≠ EmptyString) as Hflush.
  { intros run Hrun Hnon.
    destruct (flush_cases least repl run) as [[_ ->]|[? ->]]; [done|].
    split; [by apply Hq | done]. }
  induction s as [|c s IH]; intros run cur Hrun Hs; simpl.
  - case_decide as Hr.
    + subst. by rewrite flush_empty.
    + rewrite <- (str_app_nil_r (flush least repl run)).
      destruct (Hflush run Hrun Hr). by apply run_free_outside.
  - destruct (q c) eqn:Hqc.
    + apply IH; [by apply all_of_snoc|].
      rewrite decide_False by (by destruct run).
      case_decide; by eapply run_free_tail.
    + assert (∀ cur', run_free p k cur' (String c s) →
                run_free p k cur' (String c (sub_runs q least repl EmptyString s)))
        as Hstep.
      { intros cur'. simpl. destruct (p c).
        - intros [? ?]. split; [done|]. apply IH; [done|]. by rewrite decide_True.
        - intros ?. apply IH; [done|]. by rewrite decide_True. }
      case_decide as Hr.
      * subst. rewrite flush_empty by done. by apply Hstep.
      * destruct (Hflush run Hrun Hr). apply run_free_outside; [done | done |].
        by apply Hstep.
Qed.

Lemma sub_cr_no_cr s : run_free is_cr 1 0 (sub_cr s).
Proof.
  induction s as [|c s IH]; [done|]. simpl.
  destruct (is_cr c) eqn:Hc; [done|]. by rewrite Hc.
Qed.

Lemma strip_run_free p k s : run_free p k 0 s → run_free p k 0 (strip s).
Proof.
  intros Hs. unfold strip.
  destruct (lstrip_suffix s) as [pre Hpre].
  destruct (rstrip_prefix (lstrip s)) as [post Hpost].
  rewrite Hpre in Hs. apply run_free_app_r in Hs.
  rewrite Hpost in Hs. by apply run_free_app_l in Hs.
Qed.

Variable get_text : string → string.

(** X17.  Whatever the page is, the cleaned text has no whitespace at
    either end, no carriage return, no three line feeds in a row and no
    two blanks (spaces or tabs) in a row. *)
Theorem X17_cleaned_text_shape (html : string) :
  strip (html_to_text get_text html) = html_to_text get_text html
  ∧ run_free is_cr 1 0 (html_to_text get_text html)
  ∧ run_free is_lf 3 0 (html_to_text get_text html)
  ∧ run_free is_blank 2 0 (html_to_text get_text html).
Proof.
  unfold html_to_text. cbv zeta.
  set (t0 := sub_cr (get_text html)).
  set (t1 := sub_runs is_lf 3 (nl +:+ nl) EmptyString t0).
  set (t2 := sub_runs is_blank 2 " " EmptyString t1).
  assert (∀ c, is_lf c = true → is_cr c = false) as Hlf_cr.
  { intros c. unfold is_lf, is_cr. intros ->%Nat.eqb_eq. done. }
  assert (∀ c, is_blank c = true → is_cr c = false) as Hbl_cr.
  { intros c. unfold is_blank, is_cr.
    intros [->%Nat.eqb_eq| ->%Nat.eqb_eq]%orb_true_iff; done. }
  assert (∀ c, is_blank c = true → is_lf c = false) as Hbl_lf.
  { intros c. unfold is_blank, is_lf.
    intros [->%Nat.eqb_eq| ->%Nat.eqb_eq]%orb_true_iff; done. }
  split_and!.
  - apply strip_strip.
  - apply strip_run_free.
    apply (sub_runs_keeps_run_free is_cr 1 is_blank 2 " "); try done; try lia.
    destruct (decide (EmptyString = EmptyString)); [|done].
    apply (sub_runs_keeps_run_free is_cr 1 is_lf 3 (nl +:+ nl)); try done; try lia.
    destruct (decide (EmptyString = EmptyString)); [|done].
    apply sub_cr_no_cr.
  - apply strip_run_free.
    apply (sub_runs_keeps_run_free is_lf 3 is_blank 2 " "); try done; try lia.
    destruct (decide (EmptyString = EmptyString)); [|done].
    apply sub_runs_run_free; [by vm_compute | vm_compute; lia | done].
  - apply strip_run_free.
    apply sub_runs_run_free; [by vm_compute | vm_compute; lia | done].
Qed.

End CleanedText.

(** Runs of blank lines and of blanks in a page. *)
Example html_to_text_collapses :
  let cr := String (ascii_of_nat 13) EmptyString in
  let tab := String (ascii_of_nat 9) EmptyString in
  clean_docs.html_to_text (λ html, html)
    ("  Item 1" +:+ cr +:+ cr +:+ nl +:+ nl +:+ "Net   sales" +:+ tab +:+ " rose " +:+ nl)
  = "Item 1" +:+ nl +:+ nl +:+ "Net sales rose".
Proof. reflexivity. Qed.

(** ** scrape_sec.py: tickers and file names *)

Section Tickers.
Import Py scrape_sec.

Lemma isspace_upper_char c : isspace (upper_char c) = isspace c.
Proof.
  unfold isspace. rewrite code_upper_char. unfold is_lower.
  destruct (Nat.leb_spec 97 (code c)), (Nat.leb_spec (code c) 122); cbn [andb]; try done.
  repeat match goal with
         | |- context [?a <=? ?b] => destruct (Nat.leb_spec a b)
         end; cbn [andb orb]; try done; lia.
Qed.

Lemma upper_char_upper_char c : upper_char (upper_char c) = upper_char c.
Proof.
  assert (is_lower (upper_char c) = false) as H.
  { unfold is_lower. rewrite code_upper_char. unfold is_lower.
    destruct (Nat.leb_spec 97 (code c)), (Nat.leb_spec (code c) 122); cbn [andb];
      repeat match goal with
             | |- context [?a <=? ?b] => destruct (Nat.leb_spec a b)
             end; cbn [andb]; try done; lia. }
  unfold upper_char at 1. by rewrite H.
Qed.

Lemma upper_upper s : upper (upper s) = upper s.
Proof.
  induction s as [|c s IH]; [done|]. simpl. by rewrite upper_char_upper_char, IH.
Qed.

Lemma upper_empty s : upper s = EmptyString ↔ s = EmptyString.
Proof. by destruct s. Qed.

Lemma lstrip_upper s : lstrip (upper s) = upper (lstrip s).
Proof.
  induction s as [|c s IH]; [done|]. simpl. rewrite isspace_upper_char.
  by destruct (isspace c).
Qed.

Lemma rstrip_upper s : rstrip (upper s) = upper (rstrip s).
Proof.
  induction s as [|c s IH]; [done|]. simpl. rewrite IH, isspace_upper_char.
  destruct (rstrip s); simpl; [by destruct (isspace c) | done].
Qed.

Lemma strip_upper s : strip (upper s) = upper (strip s).
Proof. unfold strip. by rewrite lstrip_upper, rstrip_upper. Qed.

(** X18.  Every ticker that [normalize_tickers] returns is not empty, has
    no whitespace at either end and no lower-case letter; and normalising
    what was normalised changes nothing. *)
Theorem X18_normalize_tickers_normal (tickers : list string) :
  (∀ t, t ∈ normalize_tickers tickers →
     t ≠ EmptyString ∧ strip t = t ∧ upper t = t)
  ∧ normalize_tickers (normalize_tickers tickers) = normalize_tickers tickers.
Proof.
  assert (∀ t, t ∈ normalize_tickers tickers →
            t ≠ EmptyString ∧ strip t = t ∧ upper t = t) as Hnormal.
  { intros t (r & -> & [Hr _]%list_elem_of_filter)%list_elem_of_fmap.
    split_and!.
    - by rewrite upper_empty.
    - by rewrite strip_upper, strip_strip.
    - apply upper_upper. }
  split; [done|].
  revert Hnormal. generalize (normalize_tickers tickers). intros l Hl.
  unfold normalize_tickers. induction l as [|t l IH]; [done|].
  destruct (Hl t) as (Hne & Hstrip & Hupper); [by left|].
  rewrite filter_cons_True by (by rewrite Hstrip).
  rewrite fmap_cons, Hstrip, Hupper. f_equal.
  apply IH. intros t' Ht'. apply Hl. by right.
Qed.

(** X19.  The chunks of a ticker the scraper was given are found by the
    ticker filter of ask.py for every request that is the same ticker up
    to case and surrounding whitespace. *)
Theorem X19_filter_finds_scraped_ticker (tickers : list string) (t req : string)
    (hits : list ask.hit) (h : ask.hit) :
  t ∈ normalize_tickers tickers →
  upper (strip req) = t →
  h ∈ hits → ticker (ask.hit_meta h) = Some t →
  h ∈ ask.filter_ticker (Some req) hits.
Proof.
  intros (r & Ht & [Hr _]%list_elem_of_filter)%list_elem_of_fmap Hreq Hh Hticker.
  assert (t ≠ EmptyString) as Hne by (subst t; by rewrite upper_empty).
  unfold ask.filter_ticker.
  assert (truthy (Some req) = true) as ->.
  { destruct req; [|done]. by rewrite <- Hreq in Hne. }
  apply list_elem_of_filter. split; [|done].
  rewrite Hticker. cbn [or_empty]. rewrite Hreq, Ht. apply upper_upper.
Qed.

Lemma X19_filter_finds_witness :
  let h : ask.hit := ((1 # 2)%Q, Item None "t" (Meta (Some "AAPL") None None None)) in
  normalize_tickers [" aapl"; ""; "msft "] = ["AAPL"; "MSFT"]
  ∧ h ∈ ask.filter_ticker (Some "Aapl ") [h].
Proof.
  intros h. split; [reflexivity|].
  apply (X19_filter_finds_scraped_ticker [" aapl"; ""; "msft "] "AAPL" "Aapl " [h] h).
  - by left.
  - reflexivity.
  - by left.
  - reflexivity.
Defined.

End Tickers.

Section FileNames.
Import Py scrape_sec clean_docs.

Lemma sub_unsafe_all_safe run s :
  all_of is_unsafe run →
  all_of is_safe (sub_runs is_unsafe 1 "_" run s).
Proof.
  revert run. induction s as [|c s IH]; intros run Hrun; simpl.
  - unfold flush. destruct run; simpl; [done | by vm_compute].
  - destruct (is_unsafe c) eqn:Hc.
    + apply IH. by apply all_of_snoc.
    + apply all_of_app. split.
      * unfold flush. destruct run; simpl; [done | by vm_compute].
      * simpl. split; [|by apply IH].
        unfold is_unsafe in Hc. by apply negb_false_iff in Hc.
Qed.

Lemma sub_unsafe_id s :
  all_of is_safe s → sub_runs is_unsafe 1 "_" EmptyString s = s.
Proof.
  induction s as [|c s IH]; [done|]. simpl. intros [Hc Hs].
  unfold is_unsafe at 1. rewrite Hc. simpl. by rewrite IH.
Qed.

Lemma all_of_occurs p c t : occurs_in c t → all_of p t → all_of p c.
Proof.
  intros (pre & post & ->). rewrite !all_of_app. tauto.
Qed.

Lemma slice_all s n :
  (Z.of_nat (String.length s) ≤ n)%Z → slice s 0 n = s.
Proof.
  intros Hn. unfold slice, clip. simpl (0 <? 0)%Z. cbv iota.
  destruct (Z.ltb_spec n 0); [lia|].
  rewrite Z.min_l, Z.min_r, Z.sub_0_r, Nat2Z.id by lia. apply substring_all.
Qed.

Lemma length_slice_le s (lo hi : Z) :
  (0 ≤ lo)%Z → (0 ≤ hi)%Z →
  (Z.of_nat (String.length (slice s lo hi)) ≤ Z.max 0 (hi - lo))%Z.
Proof.
  intros Hlo Hhi. unfold slice, clip.
  destruct (Z.ltb_spec lo 0), (Z.ltb_spec hi 0); try lia.
  pose proof (length_substring
    (Z.to_nat (Z.min lo (Z.of_nat (String.length s))))
    (Z.to_nat (Z.min hi (Z.of_nat (String.length s))
               - Z.min lo (Z.of_nat (String.length s)))) s).
  lia.
Qed.

(** X20.  A file name made by [safe_filename] has only letters, digits,
    dots, underscores and hyphens and at most 200 characters; a name that
    is like that already is kept as it is. *)
Theorem X20_safe_filename_safe (s : string) :
  all_of is_safe (safe_filename s)
  ∧ String.length (safe_filename s) ≤ 200
  ∧ (all_of is_safe s → String.length s ≤ 200 → safe_filename s = s).
Proof.
  unfold safe_filename. split_and!.
  - eapply all_of_occurs; [apply slice_occurs|].
    by apply sub_unsafe_all_safe.
  - pose proof (length_slice_le (sub_runs is_unsafe 1 "_" EmptyString s) 0 200). lia.
  - intros Hsafe Hlen. rewrite sub_unsafe_id by done. apply slice_all. lia.
Qed.

(** Two ids that differ only in characters outside the class get the
    same file name. *)
Example safe_filename_collision :
  safe_filename "AAPL_0000320193-24-000081_a b.htm"
  = safe_filename "AAPL_0000320193-24-000081_a/b.htm".
Proof. reflexivity. Qed.

End FileNames.

(** ** chunk_docs.py: the chunk file *)

Section ChunkFile.
Import Py chunk_docs.

(** The character [c] stands somewhere in [s]. *)
Fixpoint has_char (c : ascii) (s : string) : bool :=
  match s with
  | EmptyString => false
  | String a s' => (code a =? code c) || has_char c s'
  end.

Lemma has_char_app c s t : has_char c (s +:+ t) = has_char c s || has_char c t.
Proof.
  induction s as [|a s IH]; [done|].
  rewrite str_app_cons. simpl. by rewrite IH, orb_assoc.
Qed.

(** Two texts that end in the same way after their last [c] are equal
    before it. *)
Lemma split_at_last c (x y u v : string) :
  has_char c u = false → has_char c v = false →
  x +:+ String c u = y +:+ String c v → x = y ∧ u = v.
Proof.
  intros Hu Hv. revert y. induction x as [|a x IH]; intros [|b y] Heq.
  - by injection Heq as ->.
  - rewrite str_app_cons in Heq. injection Heq as -> ->.
    rewrite has_char_app in Hu. simpl in Hu.
    rewrite Nat.eqb_refl, orb_true_r in Hu. done.
  - rewrite str_app_cons in Heq. injection Heq as -> <-.
    rewrite has_char_app in Hv. simpl in Hv.
    rewrite Nat.eqb_refl, orb_true_r in Hv. done.
  - rewrite !str_app_cons in Heq. injection Heq as -> Heq.
    by destruct (IH y Heq) as [-> ->].
Qed.

Lemma str_app_inv_tail (x y t : string) : x +:+ t = y +:+ t → x = y.
Proof.
  revert y. induction x as [|a x IH]; intros [|b y] Heq; [done | | |].
  - apply (f_equal String.length) in Heq.
    rewrite !str_app_length in Heq. simpl in Heq. lia.
  - apply (f_equal String.length) in Heq.
    rewrite !str_app_length in Heq. simpl in Heq. lia.
  - rewrite !str_app_cons in Heq. injection Heq as -> Heq. by rewrite (IH y Heq).
Qed.

Lemma digits_no_underscore d :
  has_char "_" (DecimalString.NilEmpty.string_of_uint d) = false.
Proof. induction d; simpl; done. Qed.

Lemma str_of_nat_inj n m : str_of_nat n = str_of_nat m → n = m.
Proof.
  unfold str_of_nat. intros Heq. apply DecimalNat.Unsigned.to_uint_inj.
  assert (Some (Nat.to_uint n) = Some (Nat.to_uint m)) as [= ?]; [|done].
  by rewrite <- !DecimalString.NilEmpty.usu, Heq.
Qed.

(** The chunk_id tells the document and the number of the chunk. *)
Lemma chunk_key_inj id1 id2 n m :
  chunk_key id1 n = chunk_key id2 m → fmt id1 = fmt id2 ∧ n = m.
Proof.
  unfold chunk_key.
  change ("::chunk_" +:+ str_of_nat n) with ("::chunk" +:+ String "_" (str_of_nat n)).
  change ("::chunk_" +:+ str_of_nat m) with ("::chunk" +:+ String "_" (str_of_nat m)).
  rewrite <- !str_app_assoc.
  intros [Hid Hn]%split_at_last; [|apply digits_no_underscore ..].
  split; [by apply str_app_inv_tail in Hid | by apply str_of_nat_inj].
Qed.

Lemma elem_of_doc_items d chunks it :
  it ∈ doc_items d chunks →
  ∃ idx, chunks !! idx = Some (text it)
         ∧ chunk_id it = Some (chunk_key (doc_id d) idx)
         ∧ item_meta it
           = Meta (doc_ticker d) (doc_doc_type d) (doc_filing_date d) (doc_url d).
Proof.
  unfold doc_items. intros (idx & ch & -> & Hch)%elem_of_lookup_imap.
  by exists idx.
Qed.

Lemma NoDup_doc_items d chunks : NoDup (chunk_id <$> doc_items d chunks).
Proof.
  apply NoDup_alt. intros i j k. unfold doc_items.
  rewrite !list_lookup_fmap, !list_lookup_imap.
  destruct (chunks !! i); [|done]. destruct (chunks !! j); [|done]. simpl.
  intros [= <-] [= Heq]. by apply chunk_key_inj in Heq as [_ ?].
Qed.

Lemma elem_of_main fuel chunk_size overlap docs items it :
  main fuel chunk_size overlap docs = Some items → it ∈ items →
  ∃ d idx, d ∈ docs ∧ chunk_id it = Some (chunk_key (doc_id d) idx)
           ∧ truthy (doc_text d) = true
           ∧ (∃ chunks, returns (or_empty (doc_text d)) chunk_size overlap chunks
                         ∧ chunks !! idx = Some (text it))
           ∧ item_meta it
             = Meta (doc_ticker d) (doc_doc_type d) (doc_filing_date d) (doc_url d).
Proof.
  revert items. induction docs as [|d docs IH]; intros items.
  { intros [= <-] Hin. by apply elem_of_nil in Hin. }
  cbn [main]. destruct (truthy (doc_text d)) eqn:Htext.
  - destruct (chunk_text fuel _ chunk_size overlap) as [chunks|] eqn:Hchunks; [|done].
    destruct (main fuel chunk_size overlap docs) as [items'|]; [|done].
    intros [= <-] [Hin|Hin]%elem_of_app.
    + apply elem_of_doc_items in Hin as (idx & Hidx & Hid & Hmeta).
      exists d, idx. split_and!; [by left | done | done | | done].
      exists chunks. split; [by exists fuel | done].
    + destruct (IH items' eq_refl Hin) as (d' & idx & Hd' & Hrest).
      exists d', idx. split; [by right | done].
  - intros Hmain Hin. destruct (IH items Hmain Hin) as (d' & idx & Hd' & Hrest).
    exists d', idx. split; [by right | done].
Qed.

(** X21.  In the chunk file every chunk carries the ticker, document
    type, filing date and URL of a document that has a text, and its text
    is one of the chunks of that text; and when the ids of the documents
    are distinct, no two chunks of the file have the same chunk_id. *)
Theorem X21_chunk_file_ids_distinct (fuel : nat) (chunk_size overlap : Z)
    (docs : list doc) (items : list item) :
  main fuel chunk_size overlap docs = Some items →
  (∀ it, it ∈ items →
     ∃ d chunks, d ∈ docs ∧ truthy (doc_text d) = true
       ∧ returns (or_empty (doc_text d)) chunk_size overlap chunks
       ∧ text it ∈ chunks
       ∧ item_meta it
         = Meta (doc_ticker d) (doc_doc_type d) (doc_filing_date d) (doc_url d))
  ∧ (NoDup ((λ d, fmt (doc_id d)) <$> docs) → NoDup (chunk_id <$> items)).
Proof.
  intros Hmain. split.
  - intros it Hit.
    destruct (elem_of_main _ _ _ _ _ _ Hmain Hit)
      as (d & idx & Hd & _ & Htext & (chunks & Hret & Hidx) & Hmeta).
    exists d, chunks. split_and!; try done.
    by apply list_elem_of_lookup_2 in Hidx.
  - revert items Hmain. induction docs as [|d docs IH]; intros items.
    { intros [= <-] _. constructor. }
    cbn [main]. rewrite fmap_cons, NoDup_cons.
    destruct (truthy (doc_text d)) eqn:Htext.
    + destruct (chunk_text fuel _ chunk_size overlap) as [chunks|]; [|done].
      destruct (main fuel chunk_size overlap docs) as [items'|] eqn:Hrest; [|done].
      intros [= <-] [Hfresh Hnd]. rewrite fmap_app. apply NoDup_app.
      split_and!; [apply NoDup_doc_items | | by apply IH].
      intros k (it1 & -> & Hit1)%list_elem_of_fmap (it2 & Heq & Hit2)%list_elem_of_fmap.
      apply elem_of_doc_items in Hit1 as (i1 & _ & Hid1 & _).
      destruct (elem_of_main _ _ _ _ _ _ Hrest Hit2) as (d' & i2 & Hd' & Hid2 & _).
      rewrite Hid1, Hid2 in Heq. injection Heq as Heq.
      apply chunk_key_inj in Heq as [Hfmt _].
      apply Hfresh. rewrite Hfmt. apply list_elem_of_fmap. by exists d'.
    + intros Hmain [_ Hnd]. by apply IH.
Qed.

Lemma X21_chunk_file_witness :
  let d1 := Doc (Some "AAPL_1") (Some "alpha beta gamma") (Some "AAPL") (Some "8-K")
              (Some "2024-02-01") (Some "https://sec.example/a") in
  let d2 := Doc (Some "MSFT_1") None (Some "MSFT") None None None in
  let d3 := Doc None (Some "delta") None None None None in
  let m1 := Meta (Some "AAPL") (Some "8-K") (Some "2024-02-01") (Some "https://sec.example/a") in
  let items := [Item (Some "AAPL_1::chunk_0") "alpha be" m1;
                Item (Some "AAPL_1::chunk_1") "beta gam" m1;
                Item (Some "AAPL_1::chunk_2") "amma" m1;
                Item (Some "None::chunk_0") "delta" (Meta None None None None)] in
  main 10 8 2 [d1; d2; d3] = Some items
  ∧ NoDup (chunk_id <$> items).
Proof.
  intros d1 d2 d3 m1 items.
  assert (main 10 8 2 [d1; d2; d3] = Some items) as Hmain by reflexivity.
  split; [done|].
  apply (X21_chunk_file_ids_distinct 10 8 2 [d1; d2; d3] items Hmain).
  vm_compute. repeat (constructor; [set_solver|]). constructor.
Defined.

End ChunkFile.

(** ** From one script to the next *)

Section Pipeline.
Import Py.

(** The file that clean_docs.py writes for a document, as chunk_docs.py
    reads it. *)
Definition doc_of_cleaned (c : clean_docs.cleaned) : chunk_docs.doc :=
  chunk_docs.Doc (clean_docs.c_id c) (Some (clean_docs.c_text c))
    (clean_docs.c_ticker c) (clean_docs.c_doc_type c)
    (clean_docs.c_filing_date c) (clean_docs.c_url c).

Lemma rstrip_nonempty c s :
  isspace c = false → rstrip (String c s) ≠ EmptyString.
Proof. simpl. intros ->. by destruct (rstrip s). Qed.

Lemma strip_starts_outside s : no_leading_space (strip s).
Proof. apply rstrip_no_leading, lstrip_no_leading. Qed.

Lemma slice_from_0 c text (hi : Z) :
  (0 < hi)%Z → ∃ rest, slice (String c text) 0 hi = String c rest.
Proof.
  intros Hhi. unfold slice.
  set (n := Z.of_nat (String.length (String c text))).
  assert (0 < n)%Z by (unfold n; simpl; lia).
  assert (clip n 0 = 0%Z) as -> by (unfold clip; simpl; lia).
  assert (1 ≤ clip n hi)%Z by (unfold clip; destruct (Z.ltb_spec hi 0); lia).
  destruct (Z.to_nat (clip n hi - 0)) as [|k] eqn:Hk; [lia|].
  simpl. by eexists.
Qed.

(** The first window of a text that starts with a character that is not
    whitespace leaves a chunk. *)
Lemma first_window_kept text (chunk_size overlap : Z) :
  (0 < chunk_size)%Z → text ≠ EmptyString → no_leading_space text →
  strip (window text chunk_size overlap 0) ≠ EmptyString.
Proof.
  intros Hcs Hne Hlead. destruct text as [|c text]; [done|]. simpl in Hlead.
  unfold window. change (Z.of_nat 0) with 0%Z. rewrite Z.mul_0_l, Z.add_0_l.
  destruct (slice_from_0 c text
              (Z.min chunk_size (Z.of_nat (String.length (String c text)))))
    as [rest ->]; [simpl String.length; lia|].
  unfold strip. cbn [lstrip]. rewrite Hlead. by apply rstrip_nonempty.
Qed.

Lemma main_single fuel (chunk_size overlap : Z) (d : chunk_docs.doc) t chunks :
  chunk_docs.doc_text d = Some t → t ≠ EmptyString →
  chunk_docs.chunk_text fuel t chunk_size overlap = Some chunks →
  chunk_docs.main fuel chunk_size overlap [d] = Some (chunk_docs.doc_items d chunks).
Proof.
  intros Hd Hne Hchunks. cbn [chunk_docs.main]. rewrite Hd.
  destruct t as [|a t]; [done|]. cbn [truthy or_empty]. rewrite Hchunks.
  simpl. by rewrite app_nil_r.
Qed.

Variable get_text : string → string.

(** X22.  A document that survives cleaning is not passed over by the
    chunking: for [0 <= overlap < chunk_size] it gives at least one chunk,
    and the first has the chunk_id of the document with number 0. *)
Theorem X22_cleaned_document_is_chunked (raw : clean_docs.raw_item)
    (c : clean_docs.cleaned) (chunk_size overlap : Z) :
  clean_docs.clean_one get_text raw = Some c →
  (0 ≤ overlap < chunk_size)%Z →
  ∃ fuel it items,
    chunk_docs.main fuel chunk_size overlap [doc_of_cleaned c] = Some (it :: items)
    ∧ chunk_id it = Some (fmt (clean_docs.raw_id raw) +:+ "::chunk_0")
    ∧ occurs_in (text it) (clean_docs.c_text c).
Proof.
  intros Hclean Hov.
  assert (clean_docs.c_text c
          = clean_docs.html_to_text get_text (or_empty (clean_docs.raw_html raw))
          ∧ clean_docs.c_id c = clean_docs.raw_id raw
          ∧ 200 ≤ String.length (clean_docs.c_text c)) as (Htext & Hid & Hlen).
  { revert Hclean. unfold clean_docs.clean_one.
    destruct (truthy _); [|done].
    destruct (Nat.ltb_spec (String.length (clean_docs.html_to_text get_text
                (or_empty (clean_docs.raw_html raw)))) 200); [done|].
    intros [= <-]. simpl. split_and!; [done | done | lia]. }
  set (t := clean_docs.c_text c) in *.
  assert (t ≠ EmptyString) as Hne by (intros Ht; rewrite Ht in Hlen; simpl in Hlen; lia).
  assert (no_leading_space t) as Hlead.
  { rewrite Htext. unfold clean_docs.html_to_text. cbv zeta. apply strip_starts_outside. }
  destruct (chunk_loop_windows (S (String.length t)) t chunk_size overlap 0 [])
    as (K & HK & Hrun & _); [lia | lia | lia |].
  destruct K as [|K]; [lia|].
  change (Z.of_nat 0 * (chunk_size - overlap))%Z with 0%Z in Hrun.
  rewrite app_nil_l in Hrun. cbn [seq] in Hrun. rewrite fmap_cons, kept_cons in Hrun.
  rewrite decide_False in Hrun by (apply first_window_kept; [lia | done | done]).
  pose proof (main_single _ _ _ (doc_of_cleaned c) t _ eq_refl Hne Hrun) as Hmain.
  cbn [app] in Hmain. unfold chunk_docs.doc_items in Hmain. cbn [imap] in Hmain.
  eexists _, _, _. split_and!; [exact Hmain | |].
  - cbn [chunk_id chunk_docs.doc_id doc_of_cleaned]. by rewrite Hid.
  - cbn [text]. eapply occurs_in_trans; [apply strip_occurs | apply slice_occurs].
Qed.

End Pipeline.

Lemma X22_cleaned_document_witness :
  let raw := clean_docs.Raw (Some (text_of_length 200)) (Some "AAPL_1") None None None
               None None None None None None in
  clean_docs.clean_one (λ html, html) raw ≠ None
  ∧ ∃ c fuel it items,
      clean_docs.clean_one (λ html, html) raw = Some c
      ∧ chunk_docs.main fuel 120 15 [doc_of_cleaned c] = Some (it :: items)
      ∧ chunk_id it = Some "AAPL_1::chunk_0".
Proof.
  intros raw.
  destruct (clean_docs.clean_one (λ html, html) raw) as [c|] eqn:Hc;
    [|by vm_compute in Hc].
  split; [done|].
  destruct (X22_cleaned_document_is_chunked (λ html, html) raw c 120 15 Hc)
    as (fuel & it & items & Hmain & Hid & _); [lia|].
  by exists c, fuel, it, items.
Defined.

Section Positions.
Import Py.
Context {vec : Type} (embedding : string → vec) (normalize_L2 : vec → vec).

Lemma collect_hits_in_range store res :
  Forall (λ r : Q * Z, (r.2 < Z.of_nat (length store))%Z) res →
  ∃ hits, ask.collect_hits store res = Some hits.
Proof.
  induction 1 as [|[s idx] res Hidx _ [hits IH]]; [by exists []|].
  rewrite collect_hits_cons. destruct (Z.ltb_spec idx 0); [by exists hits|].
  destruct (lookup_lt_is_Some_2 store (Z.to_nat idx)) as [it ->]; [simpl in Hidx; lia|].
  rewrite IH. by eexists.
Qed.

(** X23.  When the store and the index have the same length, they still
    have after an update, and then no position below the number of
    vectors of the index makes the collection of the hits raise: every
    position the index can return has its chunk in the store. *)
Theorem X23_positions_stay_valid (chunks : list item) (st : update_faiss.state)
    (res : list (Q * Z)) :
  length (update_faiss.store st) = length (update_faiss.index st) →
  Forall (λ r : Q * Z,
            (r.2 < Z.of_nat (length (update_faiss.index
                      (update_faiss.main embedding normalize_L2 chunks st))))%Z) res →
  ∃ hits,
    ask.collect_hits
      (update_faiss.store (update_faiss.main embedding normalize_L2 chunks st)) res
    = Some hits.
Proof.
  intros Hlen Hres. apply collect_hits_in_range.
  eapply Forall_impl; [exact Hres|]. simpl. intros r Hr.
  rewrite update_main_eq in *. cbn [update_faiss.store update_faiss.index] in *.
  rewrite !length_app, length_fmap in *. lia.
Qed.

End Positions.

Lemma X23_positions_witness :
  let c (id : string) : item := Item (Some id) id (Meta None None None None) in
  let st := update_faiss.State ["v0"] [c "d::chunk_0"] in
  ∃ hits,
    ask.collect_hits
      (update_faiss.store (update_faiss.main (λ t, t) (λ v, v) [c "d::chunk_1"] st))
      [((1 # 2)%Q, 1%Z); ((1 # 3)%Q, (-1)%Z)]
    = Some hits.
Proof.
  intros c st.
  apply (X23_positions_stay_valid (λ t, t) (λ v, v) [c "d::chunk_1"] st).
  - reflexivity.
  - repeat constructor.
Defined.
